(** * The live-call audio pipeline of [App]

    A shallow embedding of the session, capture and playback logic of the
    [App] component: [stopAudioInput], [stopAudioOutput], [disconnect],
    [connectToGemini] with its four session callbacks ([onopen], [onmessage],
    [onclose], [onerror]), the [onaudioprocess] capture handler, and
    [toggleMic].

    JavaScript runs these handlers one at a time on an event loop.  Every
    handler is embedded as a computation in a state-and-exception monad
    ([JS]) over the component's React state, its refs and the platform
    objects it owns.  An [await] cuts a handler into segments: the part
    before it, and a resumption that the environment runs later.  Times
    ([AudioContext.currentTime], [AudioBuffer.duration]) are JavaScript
    numbers holding seconds; they are idealised here as exact rationals. *)

From Stdlib Require Import List Bool Arith Lia QArith Qminmax Lqa String.
Import ListNotations.

Set Implicit Arguments.

(** ** Data *)

(** [ConnectionState] of [types.ts]. *)
Inductive ConnectionState : Type :=
| disconnected
| connecting
| connected
| error.

(** Platform objects are known by identity only. *)
Definition StreamId : Type := nat.   (* MediaStream *)
Definition NodeId : Type := nat.     (* AudioNode: stream source, script processor, buffer source *)
Definition PromiseId : Type := nat.  (* the promise returned by [ai.live.connect] *)
Definition Frame : Type := nat.      (* the Float32Array handed to [onaudioprocess] *)

(** A thrown value; only its [message] is ever read. *)
Inductive Exn : Type :=
| JsError (message : string).

Definition message (e : Exn) : string :=
  match e with JsError m => m end.

(** Modelled from the spec: [createBlob] is imported from [utils/audioUtils],
    which is not among the sources.  The PCM Encoder is a pure, total function
    from a captured frame to an EncodedChunk; the chunk is kept symbolic. *)
Inductive EncodedChunk : Type :=
| createBlob (inputData : Frame).

(** What [decodeAudioData] resolves to; only [duration] is read. *)
Record AudioBuffer : Type := { duration : Q }.

(** The part of a [LiveServerMessage] the handler looks at:
    [serverContent?.modelTurn?.parts?.[0]?.inlineData?.data] and
    [serverContent?.interrupted]. *)
Record LiveServerMessage : Type := {
  inlineData : option string;
  interrupted : bool
}.

(** The session object a fulfilled promise carries.  Its [close] method either
    returns or raises. *)
Record Session : Type := { close_raises : option Exn }.

(** What a function body leaves behind: a value, or a thrown exception. *)
Inductive Completion (A : Type) : Type :=
| Normal (a : A)
| Throw (e : Exn).
Arguments Normal {A} a.
Arguments Throw {A} e.

(** Observable operations on the platform, in the order they happen. *)
Inductive Effect : Type :=
| console_log (msg : string)
| console_warn (msg : string) (e : Exn)
| console_error (msg : string) (e : Exn)
| node_connect (n : NodeId)
| node_disconnect (n : NodeId)
| track_stop (st : StreamId)
| source_start (n : NodeId) (when dur : Q)
| source_stop (n : NodeId)
| source_ended (n : NodeId)
| live_connect (p : PromiseId)
| sendRealtimeInput (p : PromiseId) (media : EncodedChunk)
| session_close (p : PromiseId)
| unhandled (e : Exn).

(** The variables a callback closes over.  [connectToGemini] is a function of
    the render in which it was created, so the [isMicOn] its callbacks read is
    the value of that render, fixed for the life of the closure. *)
Record Closure : Type := {
  cl_isMicOn : bool;
  cl_stream : StreamId
}.

(** Code waiting on the session promise: the [then] callback of
    [onaudioprocess], and the rest of [disconnect] after its [await]. *)
Inductive Reaction : Type :=
| then_send (media : EncodedChunk)
| await_in_disconnect.

(** Modelled from the spec: the SDK behind [ai.live.connect] is external.  Its
    contract (section 6) reports every failure through [onError]; the promise
    it returns stays pending until the session is usable and is then
    fulfilled with the session object. *)
Inductive PromiseState : Type :=
| pending (reactions : list Reaction)
| fulfilled (session : Session).

Record Platform : Type := {
  promises : list (Closure * PromiseState); (* indexed by PromiseId *)
  processors : list (NodeId * PromiseId);   (* script processors in the graph, with the promise their handler closes over *)
  jobs : list (PromiseId * Reaction);       (* microtask queue *)
  next_id : nat                             (* next fresh object identity *)
}.

(** The component: React state, refs, platform, and the trace so far. *)
Record App : Type := {
  connectionState : ConnectionState;
  isMicOn : bool;
  errorMsg : option string;
  streamRef : option StreamId;
  sourceRef : option NodeId;
  processorRef : option NodeId;
  nextStartTimeRef : Q;
  audioSourcesRef : list NodeId;  (* a JS Set: insertion order, no duplicates *)
  sessionPromiseRef : option PromiseId;
  platform : Platform;
  log : list Effect
}.

(** The component after mount: [useState] and [useRef] initial values. *)
Definition initial : App := {|
  connectionState := disconnected;
  isMicOn := true;
  errorMsg := None;
  streamRef := None;
  sourceRef := None;
  processorRef := None;
  nextStartTimeRef := 0;
  audioSourcesRef := [];
  sessionPromiseRef := None;
  platform := {| promises := []; processors := []; jobs := []; next_id := 0 |};
  log := []
|}.

(** ** Field updates *)

Definition with_connectionState (v : ConnectionState) (s : App) : App :=
  {| connectionState := v; isMicOn := isMicOn s; errorMsg := errorMsg s;
     streamRef := streamRef s; sourceRef := sourceRef s; processorRef := processorRef s;
     nextStartTimeRef := nextStartTimeRef s; audioSourcesRef := audioSourcesRef s;
     sessionPromiseRef := sessionPromiseRef s; platform := platform s; log := log s |}.

Definition with_isMicOn (v : bool) (s : App) : App :=
  {| connectionState := connectionState s; isMicOn := v; errorMsg := errorMsg s;
     streamRef := streamRef s; sourceRef := sourceRef s; processorRef := processorRef s;
     nextStartTimeRef := nextStartTimeRef s; audioSourcesRef := audioSourcesRef s;
     sessionPromiseRef := sessionPromiseRef s; platform := platform s; log := log s |}.

Definition with_errorMsg (v : option string) (s : App) : App :=
  {| connectionState := connectionState s; isMicOn := isMicOn s; errorMsg := v;
     streamRef := streamRef s; sourceRef := sourceRef s; processorRef := processorRef s;
     nextStartTimeRef := nextStartTimeRef s; audioSourcesRef := audioSourcesRef s;
     sessionPromiseRef := sessionPromiseRef s; platform := platform s; log := log s |}.

Definition with_streamRef (v : option StreamId) (s : App) : App :=
  {| connectionState := connectionState s; isMicOn := isMicOn s; errorMsg := errorMsg s;
     streamRef := v; sourceRef := sourceRef s; processorRef := processorRef s;
     nextStartTimeRef := nextStartTimeRef s; audioSourcesRef := audioSourcesRef s;
     sessionPromiseRef := sessionPromiseRef s; platform := platform s; log := log s |}.

Definition with_sourceRef (v : option NodeId) (s : App) : App :=
  {| connectionState := connectionState s; isMicOn := isMicOn s; errorMsg := errorMsg s;
     streamRef := streamRef s; sourceRef := v; processorRef := processorRef s;
     nextStartTimeRef := nextStartTimeRef s; audioSourcesRef := audioSourcesRef s;
     sessionPromiseRef := sessionPromiseRef s; platform := platform s; log := log s |}.

Definition with_processorRef (v : option NodeId) (s : App) : App :=
  {| connectionState := connectionState s; isMicOn := isMicOn s; errorMsg := errorMsg s;
     streamRef := streamRef s; sourceRef := sourceRef s; processorRef := v;
     nextStartTimeRef := nextStartTimeRef s; audioSourcesRef := audioSourcesRef s;
     sessionPromiseRef := sessionPromiseRef s; platform := platform s; log := log s |}.

Definition with_nextStartTimeRef (v : Q) (s : App) : App :=
  {| connectionState := connectionState s; isMicOn := isMicOn s; errorMsg := errorMsg s;
     streamRef := streamRef s; sourceRef := sourceRef s; processorRef := processorRef s;
     nextStartTimeRef := v; audioSourcesRef := audioSourcesRef s;
     sessionPromiseRef := sessionPromiseRef s; platform := platform s; log := log s |}.

Definition with_audioSourcesRef (v : list NodeId) (s : App) : App :=
  {| connectionState := connectionState s; isMicOn := isMicOn s; errorMsg := errorMsg s;
     streamRef := streamRef s; sourceRef := sourceRef s; processorRef := processorRef s;
     nextStartTimeRef := nextStartTimeRef s; audioSourcesRef := v;
     sessionPromiseRef := sessionPromiseRef s; platform := platform s; log := log s |}.

Definition with_sessionPromiseRef (v : option PromiseId) (s : App) : App :=
  {| connectionState := connectionState s; isMicOn := isMicOn s; errorMsg := errorMsg s;
     streamRef := streamRef s; sourceRef := sourceRef s; processorRef := processorRef s;
     nextStartTimeRef := nextStartTimeRef s; audioSourcesRef := audioSourcesRef s;
     sessionPromiseRef := v; platform := platform s; log := log s |}.

Definition with_platform (v : Platform) (s : App) : App :=
  {| connectionState := connectionState s; isMicOn := isMicOn s; errorMsg := errorMsg s;
     streamRef := streamRef s; sourceRef := sourceRef s; processorRef := processorRef s;
     nextStartTimeRef := nextStartTimeRef s; audioSourcesRef := audioSourcesRef s;
     sessionPromiseRef := sessionPromiseRef s; platform := v; log := log s |}.

Definition with_log (v : list Effect) (s : App) : App :=
  {| connectionState := connectionState s; isMicOn := isMicOn s; errorMsg := errorMsg s;
     streamRef := streamRef s; sourceRef := sourceRef s; processorRef := processorRef s;
     nextStartTimeRef := nextStartTimeRef s; audioSourcesRef := audioSourcesRef s;
     sessionPromiseRef := sessionPromiseRef s; platform := platform s; log := v |}.

Definition with_promises (v : list (Closure * PromiseState)) (h : Platform) : Platform :=
  {| promises := v; processors := processors h; jobs := jobs h; next_id := next_id h |}.

Definition with_processors (v : list (NodeId * PromiseId)) (h : Platform) : Platform :=
  {| promises := promises h; processors := v; jobs := jobs h; next_id := next_id h |}.

Definition with_jobs (v : list (PromiseId * Reaction)) (h : Platform) : Platform :=
  {| promises := promises h; processors := processors h; jobs := v; next_id := next_id h |}.

Definition with_next_id (v : nat) (h : Platform) : Platform :=
  {| promises := promises h; processors := processors h; jobs := jobs h; next_id := v |}.

(** ** The monad of handler bodies *)

Definition JS (A : Type) : Type := App -> Completion A * App.

Definition ret {A} (a : A) : JS A := fun s => (Normal a, s).

Definition bind {A B} (m : JS A) (k : A -> JS B) : JS B :=
  fun s =>
    match m s with
    | (Normal a, s') => k a s'
    | (Throw e, s') => (Throw e, s')
    end.

Definition throw {A} (e : Exn) : JS A := fun s => (Throw e, s).

(** [try { m } catch (e) { h e }] *)
Definition try_catch {A} (m : JS A) (h : Exn -> JS A) : JS A :=
  fun s =>
    match m s with
    | (Normal a, s') => (Normal a, s')
    | (Throw e, s') => h e s'
    end.

Definition gets {A} (f : App -> A) : JS A := fun s => (Normal (f s), s).

Definition modify (f : App -> App) : JS unit := fun s => (Normal tt, f s).

Definition emit (e : Effect) : JS unit :=
  modify (fun s => with_log (log s ++ [e]) s).

Declare Scope js_scope.
Delimit Scope js_scope with js.
Notation "x <- m ;; k" := (bind m (fun x => k))
  (at level 61, m at next level, right associativity) : js_scope.
Notation "m ;; k" := (bind m (fun _ => k))
  (at level 61, right associativity) : js_scope.
Open Scope js_scope.

(** [xs.forEach(f)] *)
Fixpoint forEach {A} (xs : list A) (f : A -> JS unit) : JS unit :=
  match xs with
  | [] => ret tt
  | x :: rest => f x ;; forEach rest f
  end.

(** The state a computation leaves. *)
Definition exec {A} (m : JS A) (s : App) : App := snd (m s).

(** ** Platform operations *)

Definition fresh : JS nat :=
  fun s =>
    let h := platform s in
    (Normal (next_id h), with_platform (with_next_id (S (next_id h)) h) s).

(** JavaScript truthiness of an optional string: present and non-empty. *)
Definition truthy (o : option string) : bool :=
  match o with
  | Some EmptyString => false
  | Some _ => true
  | None => false
  end.

Definition is_start_of (n : NodeId) (e : Effect) : bool :=
  match e with source_start m _ _ => Nat.eqb m n | _ => false end.

Definition was_started (n : NodeId) (l : list Effect) : bool :=
  existsb (is_start_of n) l.

(** [AudioBufferSourceNode.stop()]: raises unless [start] was called on the
    node; stopping a node that has finished playing is allowed. *)
Definition AudioBufferSourceNode_stop (n : NodeId) : JS unit :=
  l <- gets log ;;
  if was_started n l then emit (source_stop n)
  else throw (JsError "InvalidStateError").

(** [AudioNode.disconnect()]: the node leaves the graph; a script processor
    that left the graph fires no more [audioprocess] events. *)
Definition AudioNode_disconnect (n : NodeId) : JS unit :=
  emit (node_disconnect n) ;;
  modify (fun s =>
    let h := platform s in
    with_platform
      (with_processors (filter (fun np => negb (Nat.eqb (fst np) n)) (processors h)) h) s).

(** [Set.prototype.add] and [Set.prototype.delete]. *)
Definition Set_add (n : NodeId) (xs : list NodeId) : list NodeId :=
  if existsb (Nat.eqb n) xs then xs else xs ++ [n].

Definition Set_delete (n : NodeId) (xs : list NodeId) : list NodeId :=
  filter (fun m => negb (Nat.eqb m n)) xs.

Definition promise_state (p : PromiseId) (h : Platform) : option PromiseState :=
  option_map snd (nth_error (promises h) p).

Definition closure_of (p : PromiseId) (h : Platform) : option Closure :=
  option_map fst (nth_error (promises h) p).

Fixpoint update_nth {A} (n : nat) (f : A -> A) (l : list A) : list A :=
  match l, n with
  | [], _ => []
  | x :: rest, O => f x :: rest
  | x :: rest, S n' => x :: update_nth n' f rest
  end.

Definition set_promise (p : PromiseId) (st : PromiseState) (h : Platform) : Platform :=
  with_promises (update_nth p (fun c => (fst c, st)) (promises h)) h.

(** [p.then(r)] and [await p]: the reaction never runs synchronously.  On a
    pending promise it waits for the fulfilment; on a fulfilled one it is
    queued as a microtask. *)
Definition subscribe (p : PromiseId) (r : Reaction) : JS unit :=
  modify (fun s =>
    let h := platform s in
    match promise_state p h with
    | Some (pending rs) => with_platform (set_promise p (pending (rs ++ [r])) h) s
    | Some (fulfilled _) => with_platform (with_jobs (jobs h ++ [(p, r)]) h) s
    | None => s
    end).

(** [ai.live.connect({..., callbacks})]: returns a new pending promise; the
    callbacks close over [c]. *)
Definition ai_live_connect (c : Closure) : JS PromiseId :=
  fun s =>
    let h := platform s in
    let p := List.length (promises h) in
    (Normal p,
     with_log (log s ++ [live_connect p])
       (with_platform (with_promises (promises h ++ [(c, pending [])]) h) s)).

(** [session.close()] *)
Definition Session_close (p : PromiseId) (session : Session) : JS unit :=
  match close_raises session with
  | Some e => throw e
  | None => emit (session_close p)
  end.

(** ** The component's functions *)

Definition setConnectionState (v : ConnectionState) : JS unit :=
  modify (with_connectionState v).

Definition setErrorMsg (v : option string) : JS unit :=
  modify (with_errorMsg v).

Definition setIsMicOn (f : bool -> bool) : JS unit :=
  modify (fun s => with_isMicOn (f (isMicOn s)) s).

Definition stopAudioInput : JS unit :=
  (p <- gets processorRef ;;
   match p with
   | Some n => AudioNode_disconnect n ;; modify (with_processorRef None)
   | None => ret tt
   end) ;;
  (src <- gets sourceRef ;;
   match src with
   | Some n => AudioNode_disconnect n ;; modify (with_sourceRef None)
   | None => ret tt
   end) ;;
  (st <- gets streamRef ;;
   match st with
   | Some m => emit (track_stop m) ;; modify (with_streamRef None)
   | None => ret tt
   end).

Definition stopAudioOutput : JS unit :=
  sources <- gets audioSourcesRef ;;
  forEach sources (fun source =>
    try_catch (AudioBufferSourceNode_stop source) (fun _ => ret tt)) ;;
  modify (with_audioSourcesRef []) ;;
  modify (with_nextStartTimeRef 0).

(** [disconnect], up to its [await]. *)
Definition disconnect : JS unit :=
  setConnectionState disconnected ;;
  stopAudioInput ;;
  stopAudioOutput ;;
  sp <- gets sessionPromiseRef ;;
  match sp with
  | Some p => subscribe p await_in_disconnect
  | None => ret tt
  end.

(** [disconnect], after [await sessionPromiseRef.current] gave [session]. *)
Definition disconnect_resume (p : PromiseId) (session : Session) : JS unit :=
  try_catch (Session_close p session)
            (fun e => emit (console_warn "Error closing session" e)) ;;
  modify (with_sessionPromiseRef None).

(** The catch block of [connectToGemini]. *)
Definition connect_failed (err : Exn) : JS unit :=
  emit (console_error "" err) ;;
  setErrorMsg (Some (match message err with
                     | EmptyString => "Failed to connect"%string
                     | m => m
                     end)) ;;
  setConnectionState error.

(** [connectToGemini], up to [await getUserMedia]; [true] when it suspended
    there.  [apiKey] is [process.env.API_KEY]. *)
Definition connectToGemini (apiKey : option string) : JS bool :=
  try_catch
    (setErrorMsg None ;;
     setConnectionState connecting ;;
     if truthy apiKey then ret true
     else throw (JsError "API Key not found in environment variables"))
    (fun err => connect_failed err ;; ret false).

(** [connectToGemini], from the settling of [getUserMedia] on.  The audio
    contexts are created on mount and their refs are never cleared, so the
    "not initialized" throw cannot fire, and resuming a context touches no
    state of the component.  [render_isMicOn] is the [isMicOn] of the render
    whose [handleAgentSelect] was clicked. *)
Definition connectToGemini_resume (render_isMicOn : bool) (mic : Completion unit) : JS unit :=
  try_catch
    (match mic with
     | Throw e => throw e
     | Normal _ =>
         stream <- fresh ;;
         modify (with_streamRef (Some stream)) ;;
         sessionPromise <- ai_live_connect {| cl_isMicOn := render_isMicOn; cl_stream := stream |} ;;
         modify (with_sessionPromiseRef (Some sessionPromise))
     end)
    connect_failed.

(** [scriptProcessor.onaudioprocess], with the closure it was created in. *)
Definition onaudioprocess (c : Closure) (sessionPromise : PromiseId) (inputData : Frame) : JS unit :=
  if negb (cl_isMicOn c) then ret tt
  else
    let pcmBlob := createBlob inputData in
    subscribe sessionPromise (then_send pcmBlob).

Definition onopen (c : Closure) (sessionPromise : PromiseId) : JS unit :=
  setConnectionState connected ;;
  emit (console_log "Gemini Live Connected") ;;
  source <- fresh ;;
  modify (with_sourceRef (Some source)) ;;
  scriptProcessor <- fresh ;;
  modify (with_processorRef (Some scriptProcessor)) ;;
  modify (fun s =>
    let h := platform s in
    with_platform (with_processors (processors h ++ [(scriptProcessor, sessionPromise)]) h) s) ;;
  emit (node_connect source) ;;
  emit (node_connect scriptProcessor).

(** The "Handle Interruption" block of [onmessage]. *)
Definition handle_interruption (m : LiveServerMessage) : JS unit :=
  if interrupted m then
    emit (console_log "Interrupted by user") ;;
    stopAudioOutput
  else ret tt.

Definition decode_failed (err : Exn) : JS unit :=
  emit (console_error "Error decoding audio chunk" err).

(** [onmessage], up to [await decodeAudioData(...)]; [true] when it suspended
    there.  [currentTime] is [outputCtx.currentTime]; [decode_raises] says
    whether the synchronous [decode(base64Audio)] throws. *)
Definition onmessage (m : LiveServerMessage) (currentTime : Q) (decode_raises : option Exn) : JS bool :=
  if truthy (inlineData m) then
    suspended <-
      try_catch
        (modify (fun s => with_nextStartTimeRef (Qmax (nextStartTimeRef s) currentTime) s) ;;
         match decode_raises with
         | Some e => throw e
         | None => ret true
         end)
        (fun err => decode_failed err ;; ret false) ;;
    if suspended : bool then ret true
    else handle_interruption m ;; ret false
  else handle_interruption m ;; ret false.

(** Lines 161-169: the source node is created, wired and started. *)
Definition schedule_start (audioBuffer : AudioBuffer) : JS NodeId :=
  source <- fresh ;;
  emit (node_connect source) ;;
  t <- gets nextStartTimeRef ;;
  emit (source_start source t (duration audioBuffer)) ;;
  ret source.

(** Lines 170-171: the cursor advances and the node joins the set. *)
Definition schedule_track (audioBuffer : AudioBuffer) (source : NodeId) : JS unit :=
  modify (fun s => with_nextStartTimeRef (nextStartTimeRef s + duration audioBuffer) s) ;;
  modify (fun s => with_audioSourcesRef (Set_add source (audioSourcesRef s)) s).

(** [onmessage], from the settling of [decodeAudioData] on. *)
Definition onmessage_resume (m : LiveServerMessage) (decoded : Completion AudioBuffer) : JS unit :=
  try_catch
    (match decoded with
     | Throw e => throw e
     | Normal audioBuffer =>
         source <- schedule_start audioBuffer ;;
         schedule_track audioBuffer source
     end)
    decode_failed ;;
  handle_interruption m.

(** The ['ended'] listener of a buffer source. *)
Definition onended (source : NodeId) : JS unit :=
  emit (source_ended source) ;;
  modify (fun s => with_audioSourcesRef (Set_delete source (audioSourcesRef s)) s).

Definition onclose : JS unit :=
  emit (console_log "Session Closed") ;;
  setConnectionState disconnected.

Definition onerror (e : Exn) : JS unit :=
  emit (console_error "Session Error" e) ;;
  setErrorMsg (Some "Connection error. Please try again."%string) ;;
  disconnect.

Definition toggleMic : JS unit :=
  setIsMicOn negb.

(** ** The event loop *)

Definition react (p : PromiseId) (r : Reaction) (session : Session) : JS unit :=
  match r with
  | then_send media => emit (sendRealtimeInput p media)
  | await_in_disconnect => disconnect_resume p session
  end.

(** One microtask; an exception that escapes it is an unhandled rejection. *)
Definition run_job (s : App) (j : PromiseId * Reaction) : App :=
  match promise_state (fst j) (platform s) with
  | Some (fulfilled session) =>
      match react (fst j) (snd j) session s with
      | (Normal _, s') => s'
      | (Throw e, s') => exec (emit (unhandled e)) s'
      end
  | _ => s
  end.

Definition drain (s : App) : App :=
  fold_left run_job (jobs (platform s))
            (with_platform (with_jobs [] (platform s)) s).

(** A task: the handler's synchronous segment, then the microtasks it queued. *)
Definition run_task {A} (t : JS A) (s : App) : App :=
  match t s with
  | (Normal _, s') => drain s'
  | (Throw e, s') => drain (exec (emit (unhandled e)) s')
  end.

(** The promise of [ai.live.connect] is fulfilled: its reactions are queued. *)
Definition fulfil (p : PromiseId) (session : Session) : JS unit :=
  modify (fun s =>
    let h := platform s in
    match promise_state p h with
    | Some (pending rs) =>
        with_platform
          (with_jobs (jobs h ++ map (pair p) rs) (set_promise p (fulfilled session) h)) s
    | _ => s
    end).

(** What the user and the environment can make happen.  A resumption carries
    what the suspended handler had captured, so the environment may resume
    more than the component ever suspended: every run of the component is a
    run of this loop.  [handleAgentSelect] also stores the chosen agent, which
    only the rendering reads. *)
Inductive Event : Type :=
| user_selects_agent (apiKey : option string)
| microphone_settles (render_isMicOn : bool) (mic : Completion unit)
| session_opens (p : PromiseId)
| session_ready (p : PromiseId) (session : Session)
| message_arrives (m : LiveServerMessage) (currentTime : Q) (decode_raises : option Exn)
| decode_settles (m : LiveServerMessage) (decoded : Completion AudioBuffer)
| session_closes
| session_fails (e : Exn)
| capture_tick (n : NodeId) (inputData : Frame)
| playback_ends (n : NodeId)
| user_toggles_mic
| user_hangs_up.

Definition handler (ev : Event) : JS unit :=
  match ev with
  | user_selects_agent apiKey => connectToGemini apiKey ;; ret tt
  | microphone_settles r mic => connectToGemini_resume r mic
  | session_opens p =>
      c <- gets (fun s => closure_of p (platform s)) ;;
      match c with Some c => onopen c p | None => ret tt end
  | session_ready p session => fulfil p session
  | message_arrives m t d => onmessage m t d ;; ret tt
  | decode_settles m decoded => onmessage_resume m decoded
  | session_closes => onclose
  | session_fails e => onerror e
  | capture_tick n inputData =>
      h <- gets platform ;;
      match find (fun np => Nat.eqb (fst np) n) (processors h) with
      | Some (_, p) =>
          match closure_of p h with
          | Some c => onaudioprocess c p inputData
          | None => ret tt
          end
      | None => ret tt
      end
  | playback_ends n => onended n
  | user_toggles_mic => toggleMic
  | user_hangs_up => disconnect
  end.

Definition step (s : App) (ev : Event) : App := run_task (handler ev) s.

Definition run (evs : list Event) (s : App) : App := fold_left step evs s.

(** ** Reading the trace *)

(** The playback units scheduled so far: start time and duration, oldest first. *)
Definition scheduled (l : list Effect) : list (Q * Q) :=
  flat_map (fun e => match e with source_start _ t d => [(t, d)] | _ => [] end) l.

Definition is_stop_of (n : NodeId) (e : Effect) : bool :=
  match e with source_stop m => Nat.eqb m n | _ => false end.

Definition is_end_of (n : NodeId) (e : Effect) : bool :=
  match e with source_ended m => Nat.eqb m n | _ => false end.

(** A unit is playing or due to play: started, and neither finished nor stopped. *)
Definition live (n : NodeId) (l : list Effect) : bool :=
  was_started n l && negb (existsb (is_end_of n) l) && negb (existsb (is_stop_of n) l).

Definition is_send (e : Effect) : bool :=
  match e with sendRealtimeInput _ _ => true | _ => false end.

Definition is_unhandled (e : Effect) : bool :=
  match e with unhandled _ => true | _ => false end.

(** The chunks handed to the session so far. *)
Definition sent (l : list Effect) : list Effect := filter is_send l.

(** The exceptions that escaped a handler so far. *)
Definition escaped (l : list Effect) : list Effect := filter is_unhandled l.

(** One turn of the [forEach] in [stopAudioOutput]. *)
Definition stop_quietly (source : NodeId) : JS unit :=
  try_catch (AudioBufferSourceNode_stop source) (fun _ => ret tt).

(** What the loop adds to the trace: a stop for every node that was started. *)
Definition stops_of (l : list Effect) (sources : list NodeId) : list Effect :=
  map source_stop (filter (fun n => was_started n l) sources).

(** ** Enqueueing a playback unit *)

(** An inbound message together with what the environment supplies while it is
    handled: the output clock at arrival and the decoded buffer. *)
Record Arrival : Type := {
  a_message : LiveServerMessage;
  a_currentTime : Q;
  a_decoded : AudioBuffer
}.

(** The message carries audio and no interruption. *)
Definition plays (a : Arrival) : Prop :=
  truthy (inlineData (a_message a)) = true /\ interrupted (a_message a) = false.

(** The scheduler's enqueue: [onmessage] run through, its decode succeeding. *)
Definition enqueue (a : Arrival) : JS unit :=
  onmessage (a_message a) (a_currentTime a) None ;;
  onmessage_resume (a_message a) (Normal (a_decoded a)).

(** ** Reference runs *)

Definition api_key : option string := Some "AIza-test-key"%string.

Definition live_session : Session := {| close_raises := None |}.

Definition audio_message : LiveServerMessage :=
  {| inlineData := Some "UklGRg=="%string; interrupted := false |}.

(** The user picks an agent in the first render ([isMicOn] is [true]), grants
    the microphone, the socket opens and the session promise is fulfilled. *)
Definition in_call : App :=
  run [ user_selects_agent api_key;
        microphone_settles (isMicOn initial) (Normal tt);
        session_opens 0%nat;
        session_ready 0%nat live_session ] initial.

(** In the call, one audio chunk of five seconds arrives at clock time 1. *)
Definition playing : App :=
  run [ message_arrives audio_message 1 None;
        decode_settles audio_message (Normal {| duration := 5 |}) ] in_call.

(** The remote side closes while that chunk plays; the user then picks an
    agent again and the microphone is granted. *)
Definition reconnecting : App :=
  run [ session_closes;
        user_selects_agent api_key;
        microphone_settles (isMicOn playing) (Normal tt) ] playing.

(** The events that lead from the mounted component to [playing]. *)
Definition playing_events : list Event :=
  [ user_selects_agent api_key;
    microphone_settles (isMicOn initial) (Normal tt);
    session_opens 0%nat;
    session_ready 0%nat live_session;
    message_arrives audio_message 1 None;
    decode_settles audio_message (Normal {| duration := 5 |}) ].

(** ** Teardown in closed form *)

Definition opt_list {A B} (o : option A) (f : A -> B) : list B :=
  match o with Some a => [f a] | None => [] end.

(** What [stopAudioInput] adds to the trace. *)
Definition input_release (s : App) : list Effect :=
  opt_list (processorRef s) node_disconnect
  ++ opt_list (sourceRef s) node_disconnect
  ++ opt_list (streamRef s) track_stop.

Definition not_node (o : option NodeId) (np : NodeId * PromiseId) : bool :=
  match o with Some n => negb (Nat.eqb (fst np) n) | None => true end.

(** The script processors left in the graph by [stopAudioInput]. *)
Definition processors_left (s : App) : list (NodeId * PromiseId) :=
  filter (not_node (sourceRef s)) (filter (not_node (processorRef s)) (processors (platform s))).

Definition input_stopped (s : App) : App :=
  with_streamRef None
    (with_sourceRef None
       (with_processorRef None
          (with_platform (with_processors (processors_left s) (platform s))
             (with_log (log s ++ input_release s) s)))).

Definition output_stopped (s : App) : App :=
  with_nextStartTimeRef 0
    (with_audioSourcesRef []
       (with_log (log s ++ stops_of (log s) (audioSourcesRef s)) s)).

(** The component when [disconnect] reaches its [if]. *)
Definition torn_down (s : App) : App :=
  output_stopped (input_stopped (with_connectionState disconnected s)).

(** The microtasks of a task, run in order. *)
Definition settle (js : list (PromiseId * Reaction)) (s : App) : App :=
  fold_left run_job js s.

(** The component after lines 161-171 ran on [audioBuffer]. *)
Definition unit_scheduled (audioBuffer : AudioBuffer) (s : App) : App :=
  let n := next_id (platform s) in
  with_audioSourcesRef (Set_add n (audioSourcesRef s))
    (with_nextStartTimeRef (nextStartTimeRef s + duration audioBuffer)
       (with_log (log s ++ [node_connect n;
                            source_start n (nextStartTimeRef s) (duration audioBuffer)])
          (with_platform (with_next_id (S n) (platform s)) s))).

(** ** Tracking of playback units *)

(** Every unit that is playing or due to play is a member of the set. *)
Definition tracked (s : App) : Prop :=
  forall n : NodeId, live n (log s) = true -> In n (audioSourcesRef s).

Definition keeps_tracked {A} (m : JS A) : Prop :=
  forall s : App, tracked s -> tracked (snd (m s)).

(** ** Microtask results *)

(** Trace entries that neither start a unit, nor report its end, nor are an
    escaped exception. *)
Definition quiet (l : list Effect) : Prop := escaped l = [] /\ scheduled l = [] /\
  (forall n, was_started n l = false) /\
  (forall n, existsb (is_end_of n) l = false).

(** What a microtask may do: add quiet entries that stop no unit, and clear
    [sessionPromiseRef]. *)
Definition job_result (s s' : App) : Prop :=
  exists l : list Effect,
    quiet l /\
    (forall n, existsb (is_stop_of n) l = false) /\
    (s' = with_log (log s ++ l) s \/
     s' = with_sessionPromiseRef None (with_log (log s ++ l) s)).

(** The state after a failed decode, before the interruption block. *)
Definition chunk_dropped (currentTime : Q) (e : Exn) (s : App) : App :=
  with_log (log s ++ [console_error "Error decoding audio chunk" e])
    (with_nextStartTimeRef (Qmax (nextStartTimeRef s) currentTime) s).

(** ** Overlapping handlers *)

(** Scheduled units, newest first: each begins no earlier than the one before
    it ends. *)
Fixpoint well_chained (newest_first : list (Q * Q)) : Prop :=
  match newest_first with
  | (t2, _) :: (((t1, d1) :: _) as older) => (t1 + d1 <= t2)%Q /\ well_chained older
  | _ => True
  end.

(** The cursor is at or past the end of the newest unit. *)
Definition covered (cursor : Q) (newest_first : list (Q * Q)) : Prop :=
  match newest_first with
  | (t, d) :: _ => (t + d <= cursor)%Q
  | [] => True
  end.

(** An event whose handler may run [stopAudioOutput]: remote error, hang-up,
    and either segment of a message that carries the interrupted flag. *)
Definition may_flush (ev : Event) : bool :=
  match ev with
  | message_arrives m _ _ => interrupted m
  | decode_settles m _ => interrupted m
  | session_fails _ => true
  | user_hangs_up => true
  | _ => false
  end.

(** The units scheduled after [old] are chained, and the cursor is past the
    newest of them. *)
Definition chained_since (old : list (Q * Q)) (s : App) : Prop :=
  exists new : list (Q * Q),
    scheduled (log s) = old ++ new /\
    well_chained (rev new) /\
    covered (nextStartTimeRef s) (rev new).

Definition cursor_at_least (c : Q) (s : App) : Prop := (c <= nextStartTimeRef s)%Q.

(** ** Properties kept by handler bodies *)

(** [m] keeps [P]: from a state where [P] holds it leaves one where [P] holds,
    whether it returns or throws. *)
Definition preserves (P : App -> Prop) {A} (m : JS A) : Prop :=
  forall s : App, P s -> P (snd (m s)).

(** [m] always returns: no exception leaves it. *)
Definition total {A} (m : JS A) : Prop :=
  forall s : App, exists a : A, fst (m s) = Normal a.

(** The escaped exceptions of the trace are exactly [l]. *)
Definition escapes_are (l : list Effect) (s : App) : Prop := escaped (log s) = l.

(** ** The React state, event by event *)

Definition state_is (c : ConnectionState) (s : App) : Prop := connectionState s = c.

Definition mic_is (b : bool) (s : App) : Prop := isMicOn s = b.

Definition error_is (m : option string) (s : App) : Prop := errorMsg s = m.

(** [P] looks at the three state variables only. *)
Definition react_only (P : App -> Prop) : Prop :=
  forall s s' : App,
    connectionState s' = connectionState s ->
    isMicOn s' = isMicOn s ->
    errorMsg s' = errorMsg s ->
    P s -> P s'.



(** ** Outbound frames *)

(** Script processor [n] is in the graph, its handler closes over promise [p],
    and the call was started with the microphone on. *)
Definition capturing (s : App) (n : NodeId) (p : PromiseId) : Prop :=
  find (fun np => Nat.eqb (fst np) n) (processors (platform s)) = Some (n, p) /\
  exists c : Closure, closure_of p (platform s) = Some c /\ cl_isMicOn c = true.

(** The sends of a sequence of captured frames, in capture order. *)
Definition frames_sent (p : PromiseId) (frames : list Frame) : list Effect :=
  map (fun f => sendRealtimeInput p (createBlob f)) frames.

(** The sends among the reactions waiting on a promise, in order. *)
Definition reaction_sends (p : PromiseId) (rs : list Reaction) : list Effect :=
  flat_map (fun r => match r with
                     | then_send media => [sendRealtimeInput p media]
                     | await_in_disconnect => []
                     end) rs.

(** ** Times are never negative *)

(** The cursor and every start time handed to [source.start] so far are at
    least 0. *)
Definition times_nonneg (s : App) : Prop :=
  (0 <= nextStartTimeRef s)%Q /\
  Forall (fun td => (0 <= fst td)%Q) (scheduled (log s)).

(** The environment's side: a decoded buffer has a duration of at least 0. *)
Definition sane_durations (ev : Event) : Prop :=
  match ev with
  | decode_settles _ (Normal audioBuffer) => (0 <= duration audioBuffer)%Q
  | _ => True
  end.

(** ** Closing the session *)

Definition is_close (e : Effect) : bool :=
  match e with session_close _ => true | _ => false end.

(** The calls of [session.close()] that returned, in order. *)
Definition closes (l : list Effect) : list Effect := filter is_close l.

(** What [session.close()] inside [disconnect] leaves in the trace. *)
Definition closing (p : PromiseId) (session : Session) : Effect :=
  match close_raises session with
  | None => session_close p
  | Some e => console_warn "Error closing session" e
  end.

(** ** Identities in the playback set *)

(** Every node in the set was created before the next fresh identity. *)
Definition ids_bounded (s : App) : Prop :=
  Forall (fun n => (n < next_id (platform s))%nat) (audioSourcesRef s).

(** * Proofs *)

Arguments stopAudioOutput : simpl never.

Ltac js_unfold :=
  unfold exec, bind, ret, gets, modify, emit, throw, try_catch in *.

Lemma with_log_same (s : App) : with_log (log s) s = s.
Proof. destruct s; reflexivity. Qed.

Lemma with_platform_same (s : App) : with_platform (platform s) s = s.
Proof. destruct s; reflexivity. Qed.

Lemma log_with_platform (h : Platform) (s : App) : log (with_platform h s) = log s.
Proof. reflexivity. Qed.

Lemma with_log_twice (l1 l2 : list Effect) (s : App) :
  with_log l2 (with_log l1 s) = with_log l2 s.
Proof. reflexivity. Qed.

Lemma was_started_app (n : NodeId) (l1 l2 : list Effect) :
  was_started n (l1 ++ l2) = was_started n l1 || was_started n l2.
Proof. unfold was_started. apply existsb_app. Qed.

Lemma scheduled_app (l1 l2 : list Effect) :
  scheduled (l1 ++ l2) = scheduled l1 ++ scheduled l2.
Proof. unfold scheduled. apply flat_map_app. Qed.

(** ** [stopAudioOutput] *)

Lemma stop_quietly_spec (n : NodeId) (s : App) :
  stop_quietly n s = (Normal tt, with_log (log s ++ stops_of (log s) [n]) s).
Proof.
  unfold stop_quietly, AudioBufferSourceNode_stop, stops_of. js_unfold. simpl.
  destruct (was_started n (log s)); simpl.
  - reflexivity.
  - rewrite app_nil_r, with_log_same. reflexivity.
Qed.

Lemma map_stop_never_started (n : NodeId) (ns : list NodeId) :
  was_started n (map source_stop ns) = false.
Proof. induction ns; simpl; auto. Qed.

Lemma stops_of_ignores_stops (l : list Effect) (ns sources : list NodeId) :
  stops_of (l ++ stops_of l ns) sources = stops_of l sources.
Proof.
  unfold stops_of. f_equal. apply filter_ext. intro n.
  rewrite was_started_app, map_stop_never_started. apply orb_false_r.
Qed.

Lemma stop_loop_spec (sources : list NodeId) (s : App) :
  forEach sources stop_quietly s
  = (Normal tt, with_log (log s ++ stops_of (log s) sources) s).
Proof.
  revert s. induction sources as [|n rest IH]; intro s.
  - simpl. unfold ret, stops_of. simpl. rewrite app_nil_r, with_log_same. reflexivity.
  - simpl. unfold bind at 1. rewrite stop_quietly_spec. rewrite IH.
    simpl log. rewrite with_log_twice. rewrite stops_of_ignores_stops.
    rewrite <- app_assoc. f_equal. f_equal. f_equal.
    unfold stops_of. simpl. destruct (was_started n (log s)); reflexivity.
Qed.

(** The state [stopAudioOutput] leaves, in closed form. *)
Lemma stopAudioOutput_spec (s : App) :
  stopAudioOutput s
  = (Normal tt,
     with_nextStartTimeRef 0
       (with_audioSourcesRef []
          (with_log (log s ++ stops_of (log s) (audioSourcesRef s)) s))).
Proof.
  unfold stopAudioOutput. unfold bind at 1. unfold gets at 1.
  change (fun source => try_catch (AudioBufferSourceNode_stop source) (fun _ => ret tt))
    with stop_quietly.
  unfold bind at 1. rewrite stop_loop_spec. reflexivity.
Qed.

(** C6. After any call of [stopAudioOutput] (the scheduler's flush), whatever
    the set held -- units pending, playing, finished or never started -- the
    call returns normally, the set of active sources is empty and
    [nextStartTimeRef] is 0; and stopping any single unit inside the loop,
    finished or not, never lets an exception out. *)
Theorem flush_clears_state :
  forall s : App,
    fst (stopAudioOutput s) = Normal tt /\
    audioSourcesRef (exec stopAudioOutput s) = [] /\
    nextStartTimeRef (exec stopAudioOutput s) = 0%Q /\
    (forall n : NodeId,
        fst (try_catch (AudioBufferSourceNode_stop n) (fun _ => ret tt) s) = Normal tt).
Proof.
  intro s. unfold exec. rewrite stopAudioOutput_spec. simpl.
  repeat split.
  intro n. change (fst (stop_quietly n s) = Normal tt).
  rewrite stop_quietly_spec. reflexivity.
Qed.

(** ** Enqueue *)

Lemma enqueue_effect (a : Arrival) (s : App) :
  plays a ->
  let t := Qmax (nextStartTimeRef s) (a_currentTime a) in
  let n := next_id (platform s) in
  fst (enqueue a s) = Normal tt /\
  nextStartTimeRef (exec (enqueue a) s) = (t + duration (a_decoded a))%Q /\
  log (exec (enqueue a) s)
    = log s ++ [node_connect n; source_start n t (duration (a_decoded a))] /\
  audioSourcesRef (exec (enqueue a) s) = Set_add n (audioSourcesRef s).
Proof.
  intros [Haudio Hint]. unfold enqueue, onmessage, onmessage_resume,
    handle_interruption, schedule_start, schedule_track, decode_failed, fresh.
  rewrite Haudio, Hint. js_unfold. simpl.
  rewrite <- app_assoc. simpl. repeat split.
Qed.

(** ** Mute *)

Lemma toggleMic_spec (s : App) :
  toggleMic s = (Normal tt, with_isMicOn (negb (isMicOn s)) s).
Proof. reflexivity. Qed.

(** The capture handler reads the flag of its closure, never the state. *)
Lemma onaudioprocess_reads_closure (c : Closure) (p : PromiseId) (f : Frame) (s : App) :
  log (exec (onaudioprocess c p f) (exec toggleMic s)) = log (exec (onaudioprocess c p f) s) /\
  platform (exec (onaudioprocess c p f) (exec toggleMic s))
  = platform (exec (onaudioprocess c p f) s).
Proof.
  unfold onaudioprocess, subscribe, toggleMic, setIsMicOn. js_unfold.
  destruct (cl_isMicOn c); simpl; [|split; reflexivity].
  destruct (promise_state p (platform s)) as [[rs|session]|]; simpl; split; reflexivity.
Qed.

(** C2, on the code.  In a running call the user mutes the microphone
    ([isMicOn] becomes [false]); the next capture tick still encodes its frame
    and sends it: the handler tests the [isMicOn] of the render that started
    the call. *)
Theorem mute_toggle_ignored_by_running_capture :
  forall inputData : Frame,
    let muted := step in_call user_toggles_mic in
    isMicOn in_call = true /\
    isMicOn muted = false /\
    sent (log muted) = [] /\
    sent (log (step muted (capture_tick 2%nat inputData)))
    = [sendRealtimeInput 0%nat (createBlob inputData)].
Proof. intro inputData. vm_compute. repeat split. Qed.

(** ** Remote close *)

Lemma onclose_spec (s : App) :
  onclose s
  = (Normal tt,
     with_connectionState disconnected
       (with_log (log s ++ [console_log "Session Closed"]) s)).
Proof. reflexivity. Qed.

(** C5, on the code.  The remote side closes while a call is capturing and a
    unit is playing: the state becomes [disconnected] and nothing else
    happens.  The stream, both capture nodes, the playing unit, the cursor
    and the session promise are all as before, and the next capture tick still
    sends its frame. *)
Theorem remote_close_skips_teardown :
  forall inputData : Frame,
    let s' := step playing session_closes in
    connectionState playing = connected /\
    connectionState s' = disconnected /\
    streamRef s' = Some 0%nat /\
    sourceRef s' = Some 1%nat /\
    processorRef s' = Some 2%nat /\
    processors (platform s') = [(2%nat, 0%nat)] /\
    audioSourcesRef s' = [3%nat] /\
    nextStartTimeRef s' = 6%Q /\
    sessionPromiseRef s' = Some 0%nat /\
    log s' = log playing ++ [console_log "Session Closed"] /\
    sent (log (step s' (capture_tick 2%nat inputData)))
    = [sendRealtimeInput 0%nat (createBlob inputData)].
Proof. intro inputData. vm_compute. repeat split. Qed.

(** ** Teardown *)

Lemma filter_true {A} (l : list A) : filter (fun _ => true) l = l.
Proof. induction l; simpl; congruence. Qed.

Lemma stopAudioInput_spec (s : App) :
  stopAudioInput s = (Normal tt, input_stopped s).
Proof.
  destruct s as [cs mic em st src pr nx aus sp [pms prs js nid] lg].
  unfold stopAudioInput, AudioNode_disconnect, input_stopped, input_release,
    processors_left, not_node. js_unfold.
  destruct pr as [n|], src as [n'|], st as [m|]; simpl;
    rewrite ?filter_true, ?app_nil_r, <- ?app_assoc; reflexivity.
Qed.

Lemma bind_normal {A B} (m : JS A) (k : A -> JS B) (s s' : App) (a : A) :
  m s = (Normal a, s') -> bind m k s = k a s'.
Proof. intro H. unfold bind. rewrite H. reflexivity. Qed.

Lemma sessionPromiseRef_torn_down (s : App) :
  sessionPromiseRef (torn_down s) = sessionPromiseRef s.
Proof. reflexivity. Qed.

Lemma disconnect_spec (s : App) :
  disconnect s
  = match sessionPromiseRef s with
    | Some p => subscribe p await_in_disconnect (torn_down s)
    | None => (Normal tt, torn_down s)
    end.
Proof.
  unfold disconnect.
  rewrite (@bind_normal _ _ (setConnectionState disconnected) _ s
             (with_connectionState disconnected s) tt eq_refl).
  rewrite (@bind_normal _ _ stopAudioInput _ _ _ tt (stopAudioInput_spec _)).
  rewrite (@bind_normal _ _ stopAudioOutput _ _ _ tt (stopAudioOutput_spec _)).
  fold (output_stopped (input_stopped (with_connectionState disconnected s))).
  fold (torn_down s).
  rewrite (@bind_normal _ _ (gets sessionPromiseRef) _ (torn_down s) (torn_down s)
             (sessionPromiseRef (torn_down s)) eq_refl).
  rewrite sessionPromiseRef_torn_down.
  destruct (sessionPromiseRef s); reflexivity.
Qed.

Lemma subscribe_normal (p : PromiseId) (r : Reaction) (s : App) :
  fst (subscribe p r s) = Normal tt.
Proof. reflexivity. Qed.

(** [subscribe] writes the platform only. *)
Lemma subscribe_frame (p : PromiseId) (r : Reaction) (s : App) :
  exists h : Platform, exec (subscribe p r) s = with_platform h s.
Proof.
  unfold subscribe. js_unfold. simpl.
  destruct (promise_state p (platform s)) as [[rs|session]|]; eexists; try reflexivity.
  symmetry. apply with_platform_same.
Qed.

Lemma disconnect_returns (s : App) : fst (disconnect s) = Normal tt.
Proof. rewrite disconnect_spec. destruct (sessionPromiseRef s); reflexivity. Qed.

Lemma disconnect_frame (s : App) :
  exists h : Platform, exec disconnect s = with_platform h (torn_down s).
Proof.
  unfold exec. rewrite disconnect_spec. destruct (sessionPromiseRef s) as [p|].
  - apply subscribe_frame.
  - exists (platform (torn_down s)). symmetry. apply with_platform_same.
Qed.

(** ** Microtasks *)

Lemma escaped_app (l1 l2 : list Effect) : escaped (l1 ++ l2) = escaped l1 ++ escaped l2.
Proof. apply filter_app. Qed.

Lemma quiet_nil : quiet [].
Proof. repeat split. Qed.

Lemma quiet_app (l1 l2 : list Effect) : quiet l1 -> quiet l2 -> quiet (l1 ++ l2).
Proof.
  intros (E1 & S1 & W1 & N1) (E2 & S2 & W2 & N2). repeat split.
  - rewrite escaped_app, E1, E2. reflexivity.
  - rewrite scheduled_app, S1, S2. reflexivity.
  - intro n. rewrite was_started_app, W1, W2. reflexivity.
  - intro n. rewrite existsb_app, N1, N2. reflexivity.
Qed.

Lemma job_result_refl (s : App) : job_result s s.
Proof.
  exists []. split; [apply quiet_nil|]. split; [reflexivity|].
  left. rewrite app_nil_r, with_log_same. reflexivity.
Qed.

Lemma job_result_trans (s1 s2 s3 : App) :
  job_result s1 s2 -> job_result s2 s3 -> job_result s1 s3.
Proof.
  intros (l1 & Q1 & T1 & H1) (l2 & Q2 & T2 & H2).
  exists (l1 ++ l2). split; [apply quiet_app; assumption|].
  split; [intro n; rewrite existsb_app, T1, T2; reflexivity|].
  destruct H1 as [-> | ->], H2 as [-> | ->]; simpl; rewrite <- app_assoc; auto.
Qed.

Lemma run_job_result (s : App) (j : PromiseId * Reaction) : job_result s (run_job s j).
Proof.
  unfold run_job. destruct j as [p r]. simpl.
  destruct (promise_state p (platform s)) as [[rs|session]|]; try apply job_result_refl.
  destruct r as [media|]; simpl.
  - exists [sendRealtimeInput p media]. repeat split; auto.
  - unfold disconnect_resume, Session_close. js_unfold.
    destruct (close_raises session) as [e|]; simpl.
    + exists [console_warn "Error closing session" e]. repeat split; auto.
    + exists [session_close p]. repeat split; auto.
Qed.

Lemma settle_result (js : list (PromiseId * Reaction)) (s : App) :
  job_result s (settle js s).
Proof.
  revert s. induction js as [|j js IH]; intro s; simpl.
  - apply job_result_refl.
  - eapply job_result_trans; [apply run_job_result | apply IH].
Qed.

(** [drain] empties the queue and otherwise acts as its jobs do. *)
Lemma drain_result (s : App) :
  job_result (with_platform (with_jobs [] (platform s)) s) (drain s).
Proof. apply settle_result. Qed.

Lemma run_task_normal {A} (t : JS A) (s : App) (a : A) :
  fst (t s) = Normal a -> run_task t s = drain (exec t s).
Proof.
  unfold run_task, exec. destruct (t s) as [[a'|e] s']; simpl; intro H;
    [reflexivity | discriminate H].
Qed.

Lemma job_result_connectionState (s s' : App) :
  job_result s s' -> connectionState s' = connectionState s.
Proof. intros (l & _ & _ & [-> | ->]); reflexivity. Qed.

Lemma job_result_escaped (s s' : App) :
  job_result s s' -> escaped (log s') = escaped (log s).
Proof.
  intros (l & (E & _) & _ & [-> | ->]); simpl;
    rewrite escaped_app, E, app_nil_r; reflexivity.
Qed.

Lemma drain_connectionState (s : App) : connectionState (drain s) = connectionState s.
Proof. rewrite (job_result_connectionState (drain_result s)). reflexivity. Qed.

Lemma drain_escaped (s : App) : escaped (log (drain s)) = escaped (log s).
Proof. rewrite (job_result_escaped (drain_result s)). reflexivity. Qed.

Lemma escaped_stops_of (l : list Effect) (ns : list NodeId) : escaped (stops_of l ns) = [].
Proof.
  unfold stops_of. induction (filter (fun n => was_started n l) ns); simpl; auto.
Qed.

Lemma escaped_input_release (s : App) : escaped (input_release s) = [].
Proof.
  unfold input_release.
  destruct (processorRef s), (sourceRef s), (streamRef s); reflexivity.
Qed.

Lemma escaped_torn_down (s : App) : escaped (log (torn_down s)) = escaped (log s).
Proof.
  unfold torn_down, output_stopped, input_stopped. simpl.
  rewrite !escaped_app, escaped_stops_of, escaped_input_release, !app_nil_r.
  reflexivity.
Qed.

(** One call of [disconnect], as a task. *)
Lemma hang_up_result (s : App) :
  connectionState (step s user_hangs_up) = disconnected /\
  escaped (log (step s user_hangs_up)) = escaped (log s).
Proof.
  unfold step, handler. rewrite (run_task_normal _ _ (disconnect_returns s)).
  rewrite drain_connectionState, drain_escaped.
  destruct (disconnect_frame s) as [h ->]. rewrite log_with_platform.
  split; [reflexivity | apply escaped_torn_down].
Qed.

Lemma session_ready_result (p : PromiseId) (session : Session) (s : App) :
  connectionState (step s (session_ready p session)) = connectionState s /\
  escaped (log (step s (session_ready p session))) = escaped (log s).
Proof.
  unfold step, handler.
  rewrite (@run_task_normal _ (fulfil p session) s tt eq_refl).
  rewrite drain_connectionState, drain_escaped.
  unfold fulfil. js_unfold. simpl.
  destruct (promise_state p (platform s)) as [[rs|x]|]; split; reflexivity.
Qed.

(** C8. From any state of the component -- never connected, connecting with
    the session promise still pending, connected, or already closed --
    [disconnect] does not throw, neither on a first nor on a second call, be
    the two calls separate tasks or one synchronous run; no exception escapes,
    also when [session.close()] raises or when the parked continuations run
    at a later fulfilment of the promise; and the state is [disconnected]
    each time.  In a component that never connected the call changes nothing. *)
Theorem disconnect_idempotent :
  forall s : App,
    let once := step s user_hangs_up in
    let twice := step once user_hangs_up in
    fst (disconnect s) = Normal tt /\
    fst (disconnect once) = Normal tt /\
    connectionState once = disconnected /\
    connectionState twice = disconnected /\
    escaped (log once) = escaped (log s) /\
    escaped (log twice) = escaped (log s) /\
    fst ((disconnect ;; disconnect) s) = Normal tt /\
    connectionState (run_task (disconnect ;; disconnect) s) = disconnected /\
    escaped (log (run_task (disconnect ;; disconnect) s)) = escaped (log s) /\
    (forall (p : PromiseId) (session : Session),
        connectionState (step twice (session_ready p session)) = disconnected /\
        escaped (log (step twice (session_ready p session))) = escaped (log s)) /\
    step initial user_hangs_up = initial.
Proof.
  intros s once twice.
  destruct (hang_up_result s) as [Hc1 He1].
  destruct (hang_up_result once) as [Hc2 He2].
  fold once in Hc1, He1. fold twice in Hc2, He2.
  assert (Hboth : fst ((disconnect ;; disconnect) s) = Normal tt).
  { unfold bind. pose proof (disconnect_returns s) as H.
    destruct (disconnect s) as [[[]|e] s1]; simpl in H; [|discriminate H].
    apply disconnect_returns. }
  assert (Hexec : exec (disconnect ;; disconnect) s = exec disconnect (exec disconnect s)).
  { unfold exec, bind. pose proof (disconnect_returns s) as H.
    destruct (disconnect s) as [[[]|e] s1]; simpl in H; [reflexivity | discriminate H]. }
  split; [apply disconnect_returns|].
  split; [apply disconnect_returns|].
  split; [exact Hc1|]. split; [exact Hc2|]. split; [exact He1|].
  split; [congruence|]. split; [exact Hboth|].
  split; [|split; [|split; [intros p session; split|]]].
  - rewrite (run_task_normal _ _ Hboth), drain_connectionState, Hexec.
    destruct (disconnect_frame (exec disconnect s)) as [h ->]. reflexivity.
  - rewrite (run_task_normal _ _ Hboth), drain_escaped, Hexec.
    destruct (disconnect_frame (exec disconnect s)) as [h ->].
    rewrite log_with_platform, escaped_torn_down.
    destruct (disconnect_frame s) as [h' ->].
    rewrite log_with_platform. apply escaped_torn_down.
  - destruct (session_ready_result p session twice) as [-> _]. exact Hc2.
  - destruct (session_ready_result p session twice) as [_ ->]. congruence.
  - vm_compute. reflexivity.
Qed.

(** ** Remote error *)

(** What a microtask cannot touch. *)
Lemma job_result_frame (s s' : App) :
  job_result s s' ->
  connectionState s' = connectionState s /\
  isMicOn s' = isMicOn s /\
  errorMsg s' = errorMsg s /\
  streamRef s' = streamRef s /\
  sourceRef s' = sourceRef s /\
  processorRef s' = processorRef s /\
  nextStartTimeRef s' = nextStartTimeRef s /\
  audioSourcesRef s' = audioSourcesRef s /\
  platform s' = platform s.
Proof. intros (l & _ & _ & [-> | ->]); repeat split. Qed.

Lemma settle_app (js1 js2 : list (PromiseId * Reaction)) (s : App) :
  settle (js1 ++ js2) s = settle js2 (settle js1 s).
Proof. apply fold_left_app. Qed.

Lemma nth_error_update_nth {A} (f : A -> A) (l : list A) (n : nat) :
  nth_error (update_nth n f l) n = option_map f (nth_error l n).
Proof.
  revert n. induction l as [|x l IH]; intros [|n]; simpl; auto.
Qed.

Lemma promise_state_set (p : PromiseId) (st st0 : PromiseState) (h : Platform) :
  promise_state p h = Some st0 ->
  promise_state p (set_promise p st h) = Some st.
Proof.
  unfold promise_state, set_promise. simpl. rewrite nth_error_update_nth.
  destruct (nth_error (promises h) p) as [[c x]|]; simpl; [reflexivity | discriminate].
Qed.

Lemma subscribe_fulfilled (p : PromiseId) (r : Reaction) (s : App) (session : Session) :
  promise_state p (platform s) = Some (fulfilled session) ->
  exec (subscribe p r) s
  = with_platform (with_jobs (jobs (platform s) ++ [(p, r)]) (platform s)) s.
Proof. intro H. unfold subscribe. js_unfold. simpl. rewrite H. reflexivity. Qed.

Lemma subscribe_pending (p : PromiseId) (r : Reaction) (s : App) (rs : list Reaction) :
  promise_state p (platform s) = Some (pending rs) ->
  exec (subscribe p r) s
  = with_platform (set_promise p (pending (rs ++ [r])) (platform s)) s.
Proof. intro H. unfold subscribe. js_unfold. simpl. rewrite H. reflexivity. Qed.

Lemma promise_state_torn_down (p : PromiseId) (s : App) :
  promise_state p (platform (torn_down s)) = promise_state p (platform s).
Proof. reflexivity. Qed.

Lemma disconnect_exec (s : App) (p : PromiseId) :
  sessionPromiseRef s = Some p ->
  exec disconnect s = exec (subscribe p await_in_disconnect) (torn_down s).
Proof. intro H. unfold exec. rewrite disconnect_spec, H. reflexivity. Qed.

Lemma onerror_spec (e : Exn) (s : App) :
  onerror e s
  = disconnect (with_errorMsg (Some "Connection error. Please try again."%string)
                  (with_log (log s ++ [console_error "Session Error" e]) s)).
Proof. reflexivity. Qed.

(** The counterexample to C3 as stated: a remote error in a running call
    leaves the state [disconnected], not [error]. *)
Lemma remote_error_state_is_disconnected :
  connectionState in_call = connected /\
  connectionState (step in_call (session_fails (JsError "socket hang up"))) <> error.
Proof. vm_compute. split; [reflexivity | discriminate]. Qed.

(** What a remote error leaves in the state variables and refs, and what
    becomes of the session promise. *)
Lemma remote_error_frame :
  forall (e : Exn) (s : App),
    let s' := step s (session_fails e) in
    fst (onerror e s) = Normal tt /\
    exec (onerror e) s
    = exec disconnect
        (with_errorMsg (Some "Connection error. Please try again."%string)
           (with_log (log s ++ [console_error "Session Error" e]) s)) /\
    connectionState s' = disconnected /\
    errorMsg s' = Some "Connection error. Please try again."%string /\
    processorRef s' = None /\ sourceRef s' = None /\ streamRef s' = None /\
    audioSourcesRef s' = [] /\ nextStartTimeRef s' = 0%Q /\
    (forall (p : PromiseId) (session : Session),
        sessionPromiseRef s = Some p ->
        promise_state p (platform s) = Some (fulfilled session) ->
        sessionPromiseRef s' = None /\
        (close_raises session = None -> In (session_close p) (log s'))) /\
    (forall (p : PromiseId) (rs : list Reaction),
        sessionPromiseRef s = Some p ->
        promise_state p (platform s) = Some (pending rs) ->
        promise_state p (platform s') = Some (pending (rs ++ [await_in_disconnect]))).
Proof.
  intros e s s'.
  set (s0 := with_errorMsg (Some "Connection error. Please try again."%string)
               (with_log (log s ++ [console_error "Session Error" e]) s)).
  assert (Hret : fst (onerror e s) = Normal tt).
  { rewrite onerror_spec. apply disconnect_returns. }
  assert (Hs' : s' = drain (exec disconnect s0)).
  { unfold s', step, handler. rewrite (run_task_normal _ _ Hret).
    unfold exec. rewrite onerror_spec. reflexivity. }
  split; [exact Hret|]. split; [unfold exec; rewrite onerror_spec; reflexivity|].
  destruct (job_result_frame (drain_result (exec disconnect s0)))
    as (Hcs & _ & Hem & Hst & Hsrc & Hpr & Hnx & Haus & Hpl).
  rewrite <- Hs' in *.
  destruct (disconnect_frame s0) as [h Hh].
  rewrite Hh in Hcs, Hem, Hst, Hsrc, Hpr, Hnx, Haus.
  do 7 (split; [assumption|]).
  split.
  - intros p session Hp Hful.
    assert (Hex : exec disconnect s0
                  = with_platform (with_jobs (jobs (platform s) ++ [(p, await_in_disconnect)])
                                     (platform (torn_down s0))) (torn_down s0)).
    { rewrite (@disconnect_exec s0 p Hp).
      rewrite (@subscribe_fulfilled p await_in_disconnect (torn_down s0) session);
        [reflexivity | rewrite promise_state_torn_down; exact Hful]. }
    rewrite Hs', Hex. unfold drain. simpl jobs.
    fold (settle (jobs (platform s) ++ [(p, await_in_disconnect)])).
    rewrite settle_app.
    match goal with |- context [settle (jobs (platform s)) ?x] =>
      set (s1 := x); set (s2 := settle (jobs (platform s)) s1) end.
    destruct (job_result_frame (settle_result (jobs (platform s)) s1))
      as (_ & _ & _ & _ & _ & _ & _ & _ & Hpl2).
    fold s2 in Hpl2.
    assert (Hful2 : promise_state p (platform s2) = Some (fulfilled session)).
    { rewrite Hpl2. exact Hful. }
    simpl settle. unfold run_job. simpl fst. simpl snd. rewrite Hful2.
    unfold react, disconnect_resume, Session_close. js_unfold.
    destruct (close_raises session) as [x|]; simpl; split; try reflexivity; try discriminate.
    intros _. apply in_or_app. right. left. reflexivity.
  - intros p rs Hp Hpend.
    rewrite Hpl. rewrite (@disconnect_exec s0 p Hp).
    rewrite (@subscribe_pending p await_in_disconnect (torn_down s0) rs Hpend).
    simpl platform.
    change (promise_state p (with_jobs [] ?h)) with (promise_state p h).
    eapply promise_state_set.
    rewrite <- promise_state_torn_down in Hpend. exact Hpend.
Qed.

(** ** Session open *)

(** The counterexample to C4 as stated: the remote side closed while a unit
    was queued, the user connects again, and the new session opens with the
    cursor still at 6. *)
Lemma open_keeps_stale_cursor :
  connectionState reconnecting = connecting /\
  connectionState (step reconnecting (session_opens 1%nat)) = connected /\
  ~ (nextStartTimeRef (step reconnecting (session_opens 1%nat)) == 0)%Q.
Proof. vm_compute. repeat split. discriminate. Qed.

(** C4, amended.  On the remote open signal, from any state (so also from
    [connecting]), [onopen] sets the state to [connected] and starts capture:
    it creates the stream source and the script processor, records both in
    their refs, installs the capture handler of this session and wires the
    nodes.  It does not write [nextStartTimeRef] (nor the playback set): the
    cursor keeps the value it had. *)
Theorem open_starts_capture :
  forall (c : Closure) (p : PromiseId) (s : App),
    let s' := exec (onopen c p) s in
    let n := next_id (platform s) in
    fst (onopen c p s) = Normal tt /\
    connectionState s' = connected /\
    sourceRef s' = Some n /\
    processorRef s' = Some (S n) /\
    processors (platform s') = processors (platform s) ++ [(S n, p)] /\
    log s' = log s ++ [console_log "Gemini Live Connected"; node_connect n; node_connect (S n)] /\
    nextStartTimeRef s' = nextStartTimeRef s /\
    audioSourcesRef s' = audioSourcesRef s.
Proof.
  intros c p s. unfold onopen, setConnectionState, fresh. js_unfold. simpl.
  rewrite <- !app_assoc. repeat split.
Qed.

(** ** Inbound messages *)

Lemma handle_interruption_spec (m : LiveServerMessage) (s : App) :
  handle_interruption m s
  = if interrupted m
    then (Normal tt,
          output_stopped (with_log (log s ++ [console_log "Interrupted by user"]) s))
    else (Normal tt, s).
Proof.
  unfold handle_interruption. destruct (interrupted m); [|reflexivity].
  unfold bind, emit, modify. rewrite stopAudioOutput_spec. reflexivity.
Qed.

Lemma scheduled_stops_of (l : list Effect) (ns : list NodeId) : scheduled (stops_of l ns) = [].
Proof.
  unfold stops_of. induction (filter (fun n => was_started n l) ns); simpl; auto.
Qed.

Lemma decode_throws_spec (m : LiveServerMessage) (currentTime : Q) (e : Exn) (s : App) :
  truthy (inlineData m) = true ->
  onmessage m currentTime (Some e) s
  = (Normal false, snd (handle_interruption m (chunk_dropped currentTime e s))).
Proof.
  intro Haudio. unfold onmessage. rewrite Haudio.
  unfold decode_failed. js_unfold. simpl.
  fold (chunk_dropped currentTime e s).
  rewrite handle_interruption_spec. destruct (interrupted m); reflexivity.
Qed.

Lemma decode_rejects_spec (m : LiveServerMessage) (currentTime : Q) (e : Exn) (s : App) :
  truthy (inlineData m) = true ->
  (onmessage m currentTime None ;; onmessage_resume m (Throw e)) s
  = (Normal tt, snd (handle_interruption m (chunk_dropped currentTime e s))).
Proof.
  intro Haudio. unfold onmessage, onmessage_resume. rewrite Haudio.
  unfold decode_failed. js_unfold. simpl.
  fold (chunk_dropped currentTime e s).
  rewrite handle_interruption_spec. destruct (interrupted m); reflexivity.
Qed.

(** C7. An inbound audio payload whose decode fails -- [decode] throwing on
    the spot or [decodeAudioData] rejecting after the await -- is dropped: the
    handler completes without throwing, schedules and tracks nothing, records
    the diagnostic on the console, and leaves the connection state, the error
    message and the session promise as they were.  A later chunk is scheduled
    as usual, at the maximum of the cursor and the clock. *)
Theorem decode_failure_is_local :
  forall (m : LiveServerMessage) (currentTime : Q) (e : Exn) (s : App),
    truthy (inlineData m) = true ->
    let s1 := exec (onmessage m currentTime (Some e)) s in
    let s2 := exec (onmessage m currentTime None ;; onmessage_resume m (Throw e)) s in
    fst (onmessage m currentTime (Some e) s) = Normal false /\
    fst ((onmessage m currentTime None ;; onmessage_resume m (Throw e)) s) = Normal tt /\
    s2 = s1 /\
    connectionState s1 = connectionState s /\
    errorMsg s1 = errorMsg s /\
    sessionPromiseRef s1 = sessionPromiseRef s /\
    platform s1 = platform s /\
    scheduled (log s1) = scheduled (log s) /\
    escaped (log s1) = escaped (log s) /\
    In (console_error "Error decoding audio chunk" e) (log s1) /\
    (interrupted m = false ->
     audioSourcesRef s1 = audioSourcesRef s /\
     log s1 = log s ++ [console_error "Error decoding audio chunk" e]) /\
    (forall a : Arrival,
        plays a ->
        fst (enqueue a s1) = Normal tt /\
        scheduled (log (exec (enqueue a) s1))
        = scheduled (log s1)
            ++ [(Qmax (nextStartTimeRef s1) (a_currentTime a), duration (a_decoded a))]).
Proof.
  intros m currentTime e s Haudio s1 s2.
  unfold s1, s2, exec.
  rewrite (decode_throws_spec m currentTime e s Haudio).
  rewrite (decode_rejects_spec m currentTime e s Haudio).
  simpl fst. simpl snd.
  rewrite handle_interruption_spec.
  split; [reflexivity|]. split; [reflexivity|]. split; [reflexivity|].
  assert (Hlater : forall (s0 : App) (a : Arrival), plays a ->
            fst (enqueue a s0) = Normal tt /\
            scheduled (log (exec (enqueue a) s0))
            = scheduled (log s0)
                ++ [(Qmax (nextStartTimeRef s0) (a_currentTime a), duration (a_decoded a))]).
  { intros s0 a Ha. destruct (enqueue_effect s0 Ha) as (Hr & _ & Hl & _).
    split; [exact Hr|]. rewrite Hl, scheduled_app. reflexivity. }
  repeat split;
    try match goal with
        | Ha : plays ?a |- _ =>
            first [exact (proj1 (Hlater _ a Ha)) | exact (proj2 (Hlater _ a Ha))]
        end;
    match goal with
    | H : interrupted m = false |- _ => rewrite H
    | _ => destruct (interrupted m)
    end;
    unfold output_stopped, chunk_dropped; simpl;
    rewrite ?scheduled_app, ?escaped_app, ?scheduled_stops_of, ?escaped_stops_of;
    simpl; rewrite ?app_nil_r; try reflexivity.
  - apply in_or_app. left. apply in_or_app. left. apply in_or_app. right. left. reflexivity.
  - apply in_or_app. right. left. reflexivity.
Qed.

(** C7 at a running call: a chunk that fails to decode, then one that plays. *)
Lemma decode_failure_is_local_witness :
  truthy (inlineData audio_message) = true /\
  connectionState (exec (onmessage audio_message 1 (Some (JsError "bad base64"))) in_call)
  = connected /\
  scheduled (log (exec (onmessage audio_message 1 (Some (JsError "bad base64"))) in_call))
  = [].
Proof.
  assert (H : truthy (inlineData audio_message) = true) by reflexivity.
  destruct (@decode_failure_is_local audio_message 1 (JsError "bad base64") in_call H)
    as (_ & _ & _ & Hcs & _ & _ & _ & Hsched & _).
  split; [exact H|]. split.
  - rewrite Hcs. reflexivity.
  - rewrite Hsched. reflexivity.
Defined.

Lemma schedule_spec (audioBuffer : AudioBuffer) (s : App) :
  (source <- schedule_start audioBuffer ;; schedule_track audioBuffer source) s
  = (Normal tt, unit_scheduled audioBuffer s).
Proof.
  unfold schedule_start, schedule_track, fresh, unit_scheduled. js_unfold. simpl.
  rewrite <- app_assoc. reflexivity.
Qed.

Lemma onmessage_resume_spec (m : LiveServerMessage) (decoded : Completion AudioBuffer) (s : App) :
  onmessage_resume m decoded s
  = handle_interruption m
      match decoded with
      | Normal audioBuffer => unit_scheduled audioBuffer s
      | Throw e => with_log (log s ++ [console_error "Error decoding audio chunk" e]) s
      end.
Proof.
  unfold onmessage_resume. unfold bind at 1. unfold try_catch.
  destruct decoded as [audioBuffer|e].
  - rewrite schedule_spec. reflexivity.
  - reflexivity.
Qed.

Lemma In_Set_add (n : NodeId) (xs : list NodeId) : In n (Set_add n xs).
Proof.
  unfold Set_add. destruct (existsb (Nat.eqb n) xs) eqn:E.
  - apply existsb_exists in E. destruct E as (x & Hx & Heq).
    apply Nat.eqb_eq in Heq. subst. exact Hx.
  - apply in_or_app. right. left. reflexivity.
Qed.

Lemma In_Set_add_old (n m : NodeId) (xs : list NodeId) : In m xs -> In m (Set_add n xs).
Proof.
  unfold Set_add. destruct (existsb (Nat.eqb n) xs); [auto|].
  intro H. apply in_or_app. left. exact H.
Qed.

Lemma stopped_not_live (n : NodeId) (l : list Effect) :
  In (source_stop n) l -> live n l = false.
Proof.
  intro H. unfold live.
  assert (E : existsb (is_stop_of n) l = true).
  { apply existsb_exists. exists (source_stop n). split; [exact H|].
    simpl. apply Nat.eqb_refl. }
  rewrite E. simpl. apply andb_false_r.
Qed.

(** C10. A message that carries both audio and the interrupted flag: the
    handler first decodes and schedules the unit, then flushes.  When it
    completes -- whatever the decode gave, and whatever other handlers ran
    while it was suspended -- it has not thrown, the playback set is empty
    and the cursor is 0; the unit it started has been stopped in the same
    run. *)
Theorem interrupting_audio_is_flushed :
  forall (m : LiveServerMessage) (currentTime : Q)
         (decoded : Completion AudioBuffer) (s : App),
    truthy (inlineData m) = true ->
    interrupted m = true ->
    let whole := onmessage m currentTime None ;; onmessage_resume m decoded in
    let s' := exec whole s in
    fst (onmessage m currentTime None s) = Normal true /\
    fst (whole s) = Normal tt /\
    audioSourcesRef s' = [] /\
    nextStartTimeRef s' = 0%Q /\
    (forall between : App,
        fst (onmessage_resume m decoded between) = Normal tt /\
        audioSourcesRef (exec (onmessage_resume m decoded) between) = [] /\
        nextStartTimeRef (exec (onmessage_resume m decoded) between) = 0%Q) /\
    (forall audioBuffer : AudioBuffer,
        decoded = Normal audioBuffer ->
        let n := next_id (platform s) in
        let t := Qmax (nextStartTimeRef s) currentTime in
        exists stops : list Effect,
          log s' = log s ++ [node_connect n; source_start n t (duration audioBuffer);
                             console_log "Interrupted by user"] ++ stops /\
          In (source_stop n) stops /\
          live n (log s') = false).
Proof.
  intros m currentTime decoded s Haudio Hint whole s'.
  assert (Hfirst : onmessage m currentTime None s
                   = (Normal true,
                      with_nextStartTimeRef (Qmax (nextStartTimeRef s) currentTime) s)).
  { unfold onmessage. rewrite Haudio. reflexivity. }
  assert (Hresume : forall between : App,
            fst (onmessage_resume m decoded between) = Normal tt /\
            audioSourcesRef (exec (onmessage_resume m decoded) between) = [] /\
            nextStartTimeRef (exec (onmessage_resume m decoded) between) = 0%Q).
  { intro between. unfold exec.
    rewrite onmessage_resume_spec, handle_interruption_spec, Hint.
    repeat split. }
  assert (Hwhole : whole s
                   = onmessage_resume m decoded
                       (with_nextStartTimeRef (Qmax (nextStartTimeRef s) currentTime) s)).
  { unfold whole, bind. rewrite Hfirst. reflexivity. }
  split; [rewrite Hfirst; reflexivity|].
  unfold s', exec. rewrite Hwhole.
  split; [apply Hresume|]. split; [apply Hresume|]. split; [apply Hresume|].
  split; [exact Hresume|].
  intros audioBuffer ->.
  set (n := next_id (platform s)). set (t := Qmax (nextStartTimeRef s) currentTime).
  rewrite onmessage_resume_spec, handle_interruption_spec, Hint.
  unfold output_stopped, unit_scheduled. simpl.
  fold n. fold t.
  match goal with |- context [stops_of ?l ?xs] => set (stops := stops_of l xs) end.
  assert (Hin : In (source_stop n) stops).
  { unfold stops, stops_of. apply in_map. apply filter_In. split.
    - apply In_Set_add.
    - rewrite !was_started_app. simpl. rewrite Nat.eqb_refl.
      rewrite !orb_true_r. reflexivity. }
  exists stops. split; [|split].
  - rewrite <- !app_assoc. reflexivity.
  - exact Hin.
  - apply stopped_not_live. apply in_or_app. right. exact Hin.
Qed.

(** C10 in the running call: a chunk of two seconds that also interrupts. *)
Lemma interrupting_audio_is_flushed_witness :
  audioSourcesRef
    (exec (onmessage {| inlineData := Some "UklGRg=="%string; interrupted := true |} 1 None ;;
           onmessage_resume {| inlineData := Some "UklGRg=="%string; interrupted := true |}
                            (Normal {| duration := 2 |})) playing) = [] /\
  nextStartTimeRef
    (exec (onmessage {| inlineData := Some "UklGRg=="%string; interrupted := true |} 1 None ;;
           onmessage_resume {| inlineData := Some "UklGRg=="%string; interrupted := true |}
                            (Normal {| duration := 2 |})) playing) = 0%Q.
Proof.
  destruct (@interrupting_audio_is_flushed
              {| inlineData := Some "UklGRg=="%string; interrupted := true |} 1
              (Normal {| duration := 2 |}) playing eq_refl eq_refl)
    as (_ & _ & Hset & Hcursor & _).
  split; [exact Hset | exact Hcursor].
Defined.

(** ** Tracking *)

Lemma live_app_quiet (n : NodeId) (l1 l2 : list Effect) :
  was_started n l2 = false -> live n (l1 ++ l2) = true -> live n l1 = true.
Proof.
  unfold live. rewrite was_started_app, !existsb_app. intros ->.
  rewrite orb_false_r.
  destruct (was_started n l1); simpl; [|discriminate].
  destruct (existsb (is_end_of n) l1); simpl; [discriminate|].
  destruct (existsb (is_stop_of n) l1); simpl; [|reflexivity].
  destruct (existsb (is_end_of n) l2); discriminate.
Qed.

Lemma tracked_ext (s s' : App) (l : list Effect) :
  log s' = log s ++ l ->
  audioSourcesRef s' = audioSourcesRef s ->
  (forall n, was_started n l = false) ->
  tracked s -> tracked s'.
Proof.
  intros Hl Ha Hq Ht n Hlive. rewrite Ha. apply Ht.
  rewrite Hl in Hlive. eapply live_app_quiet; [apply Hq | exact Hlive].
Qed.

Lemma tracked_same (s s' : App) :
  log s' = log s -> audioSourcesRef s' = audioSourcesRef s -> tracked s -> tracked s'.
Proof.
  intros Hl Ha. apply tracked_ext with (l := []); auto. rewrite app_nil_r. exact Hl.
Qed.

Lemma keeps_ret {A} (a : A) : keeps_tracked (ret a).
Proof. intros s H. exact H. Qed.

Lemma keeps_throw {A} (e : Exn) : keeps_tracked (@throw A e).
Proof. intros s H. exact H. Qed.

Lemma keeps_gets {A} (f : App -> A) : keeps_tracked (gets f).
Proof. intros s H. exact H. Qed.

Lemma keeps_bind {A B} (m : JS A) (k : A -> JS B) :
  keeps_tracked m -> (forall a, keeps_tracked (k a)) -> keeps_tracked (bind m k).
Proof.
  intros Hm Hk s H. unfold bind. specialize (Hm s H).
  destruct (m s) as [[a|e] s1]; simpl in *; [apply Hk; exact Hm | exact Hm].
Qed.

Lemma keeps_try_catch {A} (m : JS A) (h : Exn -> JS A) :
  keeps_tracked m -> (forall e, keeps_tracked (h e)) -> keeps_tracked (try_catch m h).
Proof.
  intros Hm Hh s H. unfold try_catch. specialize (Hm s H).
  destruct (m s) as [[a|e] s1]; simpl in *; [exact Hm | apply Hh; exact Hm].
Qed.

Lemma keeps_modify (f : App -> App) :
  (forall s, log (f s) = log s) ->
  (forall s, audioSourcesRef (f s) = audioSourcesRef s) ->
  keeps_tracked (modify f).
Proof. intros Hl Ha s H. simpl. eapply tracked_same; eauto. Qed.

Lemma keeps_emit (e : Effect) :
  (forall n, is_start_of n e = false) -> keeps_tracked (emit e).
Proof.
  intros He s H. simpl. apply tracked_ext with (s := s) (l := [e]); auto.
  intro n. simpl. rewrite He. reflexivity.
Qed.

Lemma keeps_fresh : keeps_tracked fresh.
Proof. intros s H. simpl. eapply tracked_same; eauto. Qed.

Lemma keeps_subscribe (p : PromiseId) (r : Reaction) : keeps_tracked (subscribe p r).
Proof.
  intros s H. destruct (subscribe_frame p r s) as [h Hh]. unfold exec in Hh.
  rewrite Hh. eapply tracked_same; eauto.
Qed.

Lemma keeps_fulfil (p : PromiseId) (session : Session) : keeps_tracked (fulfil p session).
Proof.
  intros s H. unfold fulfil, modify. simpl.
  destruct (promise_state p (platform s)) as [[rs|x]|]; exact H.
Qed.

Lemma keeps_ai_live_connect (c : Closure) : keeps_tracked (ai_live_connect c).
Proof.
  intros s H. simpl.
  apply tracked_ext with (s := s) (l := [live_connect (List.length (promises (platform s)))]); auto.
Qed.

Lemma keeps_AudioNode_disconnect (n : NodeId) : keeps_tracked (AudioNode_disconnect n).
Proof.
  unfold AudioNode_disconnect. apply keeps_bind.
  - apply keeps_emit. reflexivity.
  - intros _. apply keeps_modify; reflexivity.
Qed.

(** After a flush no unit is live. *)
Lemma keeps_stopAudioOutput : keeps_tracked stopAudioOutput.
Proof.
  intros s H n Hlive. rewrite stopAudioOutput_spec in *. simpl in *.
  exfalso.
  assert (Hold : live n (log s) = true).
  { eapply live_app_quiet; [|exact Hlive]. apply map_stop_never_started. }
  assert (Hstarted : was_started n (log s) = true).
  { unfold live in Hold. destruct (was_started n (log s)); [reflexivity | discriminate]. }
  assert (Hstop : In (source_stop n) (stops_of (log s) (audioSourcesRef s))).
  { unfold stops_of. apply in_map. apply filter_In. split; [apply H; exact Hold | exact Hstarted]. }
  rewrite (@stopped_not_live n (log s ++ stops_of (log s) (audioSourcesRef s))) in Hlive;
    [discriminate | apply in_or_app; right; exact Hstop].
Qed.

(** Lines 161-171 as a whole: the unit they start is in the set at the end. *)
Lemma keeps_schedule (audioBuffer : AudioBuffer) :
  keeps_tracked (source <- schedule_start audioBuffer ;; schedule_track audioBuffer source).
Proof.
  intros s H n Hlive. rewrite schedule_spec in *. simpl in *.
  destruct (Nat.eqb (next_id (platform s)) n) eqn:E.
  - apply Nat.eqb_eq in E. subst n. apply In_Set_add.
  - apply In_Set_add_old. apply H.
    eapply live_app_quiet; [|exact Hlive]. simpl. rewrite E. reflexivity.
Qed.

Lemma In_Set_delete (n m : NodeId) (xs : list NodeId) :
  In m xs -> m <> n -> In m (Set_delete n xs).
Proof.
  intros Hin Hne. unfold Set_delete. apply filter_In. split; [exact Hin|].
  apply negb_true_iff. apply Nat.eqb_neq. exact Hne.
Qed.

Lemma keeps_onended (source : NodeId) : keeps_tracked (onended source).
Proof.
  intros s H n Hlive. unfold onended in *. js_unfold. simpl in *.
  assert (Hne : n <> source).
  { intro Heq. subst n. unfold live in Hlive.
    rewrite (existsb_app (is_end_of source)) in Hlive. simpl in Hlive.
    rewrite Nat.eqb_refl in Hlive. rewrite !orb_true_r in Hlive. simpl in Hlive.
    rewrite andb_false_r in Hlive. discriminate. }
  apply In_Set_delete; [|exact Hne]. apply H.
  eapply live_app_quiet; [|exact Hlive]. reflexivity.
Qed.

Create HintDb tracked.
#[local] Hint Resolve keeps_ret keeps_throw keeps_gets keeps_fresh keeps_subscribe
  keeps_fulfil keeps_ai_live_connect keeps_AudioNode_disconnect
  keeps_stopAudioOutput keeps_schedule keeps_onended : tracked.

Ltac keeps :=
  repeat first
    [ solve [auto with tracked]
    | apply keeps_emit; intro; reflexivity
    | apply keeps_modify; intro; reflexivity
    | apply keeps_bind; [|intro]
    | apply keeps_try_catch; [|intro]
    | match goal with
      | |- keeps_tracked (match ?x with _ => _ end) => destruct x
      end ].

Lemma keeps_disconnect : keeps_tracked disconnect.
Proof.
  unfold disconnect, setConnectionState, stopAudioInput. keeps.
Qed.

Lemma keeps_handle_interruption (m : LiveServerMessage) :
  keeps_tracked (handle_interruption m).
Proof. unfold handle_interruption. keeps. Qed.

Lemma keeps_handler (ev : Event) : keeps_tracked (handler ev).
Proof.
  pose proof keeps_disconnect. pose proof keeps_handle_interruption.
  destruct ev; unfold handler, connectToGemini, connectToGemini_resume, connect_failed,
    onopen, onmessage, onmessage_resume, decode_failed, onclose, onerror,
    onaudioprocess, toggleMic, setConnectionState, setErrorMsg, setIsMicOn;
    keeps.
Qed.

Lemma job_result_tracked (s s' : App) : job_result s s' -> tracked s -> tracked s'.
Proof.
  intros (l & (_ & _ & Hq & _) & _ & [-> | ->]) H;
    apply tracked_ext with (s := s) (l := l); auto.
Qed.

Lemma drain_tracked (s : App) : tracked s -> tracked (drain s).
Proof.
  intro H. apply (job_result_tracked (drain_result s)).
  eapply tracked_same; eauto.
Qed.

Lemma run_task_tracked {A} (t : JS A) (s : App) :
  keeps_tracked t -> tracked s -> tracked (run_task t s).
Proof.
  intros Ht H. unfold run_task. specialize (Ht s H).
  destruct (t s) as [[a|e] s1]; simpl in Ht; apply drain_tracked; [exact Ht|].
  apply (keeps_emit (unhandled e)); [reflexivity | exact Ht].
Qed.

Lemma step_tracked (s : App) (ev : Event) : tracked s -> tracked (step s ev).
Proof. apply run_task_tracked. apply keeps_handler. Qed.

Lemma run_tracked (evs : list Event) (s : App) : tracked s -> tracked (run evs s).
Proof.
  revert s. induction evs as [|ev evs IH]; intros s H; simpl; [exact H|].
  apply IH. apply step_tracked. exact H.
Qed.

Lemma initial_tracked : tracked initial.
Proof. intros n H. discriminate H. Qed.

(** The counterexample to C9 as stated: in the running call the handler has
    just executed [source.start(...)] for node 3; at that point the node is
    started and the set does not hold it.  The two statements that follow put
    it there. *)
Lemma started_before_tracked :
  let s0 := exec (onmessage audio_message 1 None) in_call in
  let s1 := exec (schedule_start {| duration := 5 |}) s0 in
  fst (schedule_start {| duration := 5 |} s0) = Normal 3%nat /\
  was_started 3%nat (log s1) = true /\
  existsb (Nat.eqb 3%nat) (audioSourcesRef s1) = false /\
  audioSourcesRef (exec (schedule_track {| duration := 5 |} 3%nat) s1) = [3%nat].
Proof. vm_compute. repeat split. Qed.

(** C9, amended.  The handler calls [start] first and adds the node to the
    set right after, with no [await] in between: when that synchronous run
    ends the node is both started and in the set.  Hence, in every state the
    event loop can reach from the mounted component -- between any two
    handlers, whatever the order of user actions, session callbacks, capture
    ticks, settled decodes and ['ended'] events -- every unit that has been
    started and has neither ended nor been stopped is a member of the set. *)
Theorem live_units_are_tracked :
  (forall (audioBuffer : AudioBuffer) (s : App),
      let s' := exec (source <- schedule_start audioBuffer ;;
                      schedule_track audioBuffer source) s in
      was_started (next_id (platform s)) (log s') = true /\
      In (next_id (platform s)) (audioSourcesRef s')) /\
  (forall (evs : list Event) (n : NodeId),
      live n (log (run evs initial)) = true ->
      In n (audioSourcesRef (run evs initial))).
Proof.
  split.
  - intros audioBuffer s s'. unfold s', exec. rewrite schedule_spec. simpl. split.
    + rewrite was_started_app. simpl. rewrite Nat.eqb_refl.
      rewrite !orb_true_r. reflexivity.
    + apply In_Set_add.
  - intros evs. apply (run_tracked evs initial_tracked).
Qed.

(** C9 amended, at the running call with one unit playing. *)
Lemma live_units_are_tracked_witness :
  live 3%nat (log (run playing_events initial)) = true /\
  In 3%nat (audioSourcesRef (run playing_events initial)).
Proof.
  assert (H : live 3%nat (log (run playing_events initial)) = true)
    by (vm_compute; reflexivity).
  split; [exact H|].
  exact (proj2 live_units_are_tracked playing_events 3%nat H).
Defined.

(** ** Enqueues whose handlers overlap *)

Lemma covered_le (c c' : Q) (l : list (Q * Q)) :
  (c <= c')%Q -> covered c l -> covered c' l.
Proof.
  destruct l as [|[t d] l]; simpl; [auto|]. intros H1 H2.
  eapply Qle_trans; eassumption.
Qed.

Lemma well_chained_nth (l : list (Q * Q)) :
  well_chained (rev l) ->
  forall i t1 d1 t2 d2,
    nth_error l i = Some (t1, d1) -> nth_error l (S i) = Some (t2, d2) ->
    (t1 + d1 <= t2)%Q.
Proof.
  induction l as [|x l IH] using rev_ind; intros Hw i t1 d1 t2 d2 H1 H2.
  - destruct i; discriminate H1.
  - rewrite rev_app_distr in Hw. simpl in Hw.
    assert (Hlen : (S i < List.length (l ++ [x]))%nat)
      by (apply nth_error_Some; rewrite H2; discriminate).
    rewrite length_app in Hlen. simpl in Hlen.
    destruct (Nat.eq_dec (S i) (List.length l)) as [Heq|Hne].
    + rewrite nth_error_app2 in H2 by lia. rewrite Heq, Nat.sub_diag in H2.
      simpl in H2. inversion H2; subst x. clear H2.
      rewrite nth_error_app1 in H1 by lia.
      assert (Hlast : nth_error (rev l) 0 = Some (t1, d1)).
      { rewrite nth_error_rev.
        replace (0 <? List.length l)%nat with true
          by (symmetry; apply Nat.ltb_lt; lia).
        replace (List.length l - S 0)%nat with i by lia. exact H1. }
      destruct (rev l) as [|[t d] older]; [discriminate Hlast|].
      simpl in Hlast. inversion Hlast; subst. apply Hw.
    + rewrite nth_error_app1 in H1 by lia. rewrite nth_error_app1 in H2 by lia.
      apply (IH) with (i := i) (d2 := d2); auto.
      destruct x as [t d]. destruct (rev l) as [|[t' d'] older]; simpl; auto.
      apply Hw.
Qed.

(** ** Handler bodies: what they keep and that they return *)

Unset Implicit Arguments.

Section Preserving.

Variable P : App -> Prop.

Lemma preserves_ret {A} (a : A) : preserves P (ret a).
Proof. intros s H. exact H. Qed.

Lemma preserves_throw {A} (e : Exn) : preserves P (@throw A e).
Proof. intros s H. exact H. Qed.

Lemma preserves_gets {A} (f : App -> A) : preserves P (gets f).
Proof. intros s H. exact H. Qed.

Lemma preserves_bind {A B} (m : JS A) (k : A -> JS B) :
  preserves P m -> (forall a, preserves P (k a)) -> preserves P (bind m k).
Proof.
  intros Hm Hk s H. unfold bind. specialize (Hm s H).
  destruct (m s) as [[a|e] s1]; simpl in *; [apply Hk; exact Hm | exact Hm].
Qed.

Lemma preserves_try_catch {A} (m : JS A) (h : Exn -> JS A) :
  preserves P m -> (forall e, preserves P (h e)) -> preserves P (try_catch m h).
Proof.
  intros Hm Hh s H. unfold try_catch. specialize (Hm s H).
  destruct (m s) as [[a|e] s1]; simpl in *; [exact Hm | apply Hh; exact Hm].
Qed.

Lemma preserves_modify (f : App -> App) :
  (forall s, P s -> P (f s)) -> preserves P (modify f).
Proof. intros Hf s H. simpl. apply Hf. exact H. Qed.

Lemma preserves_run_task {A} (t : JS A) (s : App) :
  (forall s0, P s0 -> P (drain s0)) ->
  preserves P t -> total t -> P s -> P (run_task t s).
Proof.
  intros Hd Ht Htot H. destruct (Htot s) as [a Ha].
  rewrite (run_task_normal _ _ Ha). apply Hd. apply Ht. exact H.
Qed.

End Preserving.

Lemma total_ret {A} (a : A) : total (ret a).
Proof. intro s. exists a. reflexivity. Qed.

Lemma total_gets {A} (f : App -> A) : total (gets f).
Proof. intro s. eexists. reflexivity. Qed.

Lemma total_modify (f : App -> App) : total (modify f).
Proof. intro s. exists tt. reflexivity. Qed.

Lemma total_bind {A B} (m : JS A) (k : A -> JS B) :
  total m -> (forall a, total (k a)) -> total (bind m k).
Proof.
  intros Hm Hk s. unfold bind. destruct (Hm s) as [a Ha].
  destruct (m s) as [[a'|e] s1]; simpl in Ha; [apply Hk | discriminate Ha].
Qed.

(** A [try] whose [catch] block always returns always returns. *)
Lemma total_try_catch {A} (m : JS A) (h : Exn -> JS A) :
  (forall e, total (h e)) -> total (try_catch m h).
Proof.
  intros Hh s. unfold try_catch.
  destruct (m s) as [[a|e] s1]; [exists a; reflexivity | apply Hh].
Qed.

Lemma total_fresh : total fresh.
Proof. intro s. eexists. reflexivity. Qed.

Lemma total_subscribe (p : PromiseId) (r : Reaction) : total (subscribe p r).
Proof. intro s. exists tt. reflexivity. Qed.

Lemma total_ai_live_connect (c : Closure) : total (ai_live_connect c).
Proof. intro s. eexists. reflexivity. Qed.

Lemma total_stopAudioOutput : total stopAudioOutput.
Proof. intro s. exists tt. rewrite stopAudioOutput_spec. reflexivity. Qed.

Lemma total_stopAudioInput : total stopAudioInput.
Proof. intro s. exists tt. rewrite stopAudioInput_spec. reflexivity. Qed.

Lemma total_disconnect : total disconnect.
Proof. intro s. exists tt. apply disconnect_returns. Qed.

Create HintDb returns.
#[local] Hint Resolve total_ret total_gets total_modify total_fresh total_subscribe
  total_ai_live_connect total_stopAudioOutput total_stopAudioInput
  total_disconnect : returns.

Ltac totally :=
  repeat first
    [ solve [auto with returns]
    | apply total_modify
    | apply total_bind; [|intro]
    | apply total_try_catch; intro
    | match goal with
      | |- total (match ?x with _ => _ end) => destruct x
      end ].

(** Every handler returns: whatever is thrown inside is caught inside. *)
Lemma total_handler (ev : Event) : total (handler ev).
Proof.
  destruct ev; unfold handler, connectToGemini, connectToGemini_resume, connect_failed,
    onopen, onmessage, onmessage_resume, handle_interruption, decode_failed,
    onclose, onerror, onaudioprocess, onended, toggleMic, fulfil,
    setConnectionState, setErrorMsg, setIsMicOn, emit;
    totally.
Qed.

(** Proves [preserves P m] for a handler body [m] built from the monad's
    operations; [side] settles what a state update has to keep, [prim] the
    platform operations. *)
Ltac preserving side prim :=
  repeat first
    [ apply preserves_ret
    | apply preserves_throw
    | apply preserves_gets
    | apply preserves_modify; solve [side]
    | solve [prim]
    | apply preserves_bind; [|intro]
    | apply preserves_try_catch; [|intro]
    | match goal with
      | |- preserves _ (match ?x with _ => _ end) => destruct x
      end ].

(** ** No exception escapes *)

Ltac escapes_side :=
  unfold escapes_are; intros; simpl in *; rewrite ?escaped_app; simpl;
  rewrite ?escaped_stops_of, ?app_nil_r; assumption.

Lemma escapes_fresh (l : list Effect) : preserves (escapes_are l) fresh.
Proof. intros s H. exact H. Qed.

Lemma escapes_ai_live_connect (l : list Effect) (c : Closure) :
  preserves (escapes_are l) (ai_live_connect c).
Proof. intros s. unfold ai_live_connect. escapes_side. Qed.

Lemma escapes_subscribe (l : list Effect) (p : PromiseId) (r : Reaction) :
  preserves (escapes_are l) (subscribe p r).
Proof.
  intros s H. destruct (subscribe_frame p r s) as [h Hh]. unfold exec in Hh.
  rewrite Hh. exact H.
Qed.

Lemma escapes_fulfil (l : list Effect) (p : PromiseId) (session : Session) :
  preserves (escapes_are l) (fulfil p session).
Proof.
  intros s H. unfold fulfil, modify. simpl.
  destruct (promise_state p (platform s)) as [[rs|x]|]; exact H.
Qed.

Lemma escapes_stopAudioOutput (l : list Effect) :
  preserves (escapes_are l) stopAudioOutput.
Proof. intros s. rewrite stopAudioOutput_spec. escapes_side. Qed.

Lemma escapes_handler (l : list Effect) (ev : Event) :
  preserves (escapes_are l) (handler ev).
Proof.
  pose proof (@escapes_fresh l). pose proof (@escapes_ai_live_connect l).
  pose proof (@escapes_subscribe l). pose proof (@escapes_fulfil l).
  pose proof (@escapes_stopAudioOutput l).
  destruct ev; unfold handler, connectToGemini, connectToGemini_resume, connect_failed,
    onopen, onmessage, onmessage_resume, handle_interruption, decode_failed,
    schedule_start, schedule_track, onclose, onerror, disconnect, stopAudioInput,
    AudioNode_disconnect, onaudioprocess, onended, toggleMic,
    setConnectionState, setErrorMsg, setIsMicOn, emit;
    preserving escapes_side ltac:(auto).
Qed.

Lemma escapes_drain (l : list Effect) (s : App) :
  escapes_are l s -> escapes_are l (drain s).
Proof. unfold escapes_are. rewrite drain_escaped. auto. Qed.

(** X1. No event handler lets an exception out.  Whatever the user and the
    environment do, in whatever order -- a missing key, a denied microphone, a
    payload that does not decode, a [stop] or a [close] that raises -- the
    exceptions are caught inside the handler: a step adds no escaped
    exception to the trace, and no run of the mounted component has one. *)
Theorem no_exception_escapes :
  (forall (s : App) (ev : Event), escaped (log (step s ev)) = escaped (log s)) /\
  (forall evs : list Event, escaped (log (run evs initial)) = []).
Proof.
  assert (Hstep : forall (s : App) (ev : Event),
             escaped (log (step s ev)) = escaped (log s)).
  { intros s ev.
    apply (@preserves_run_task (escapes_are (escaped (log s))) _ (handler ev) s).
    - intro s0. apply escapes_drain.
    - apply escapes_handler.
    - apply total_handler.
    - reflexivity. }
  split; [exact Hstep|].
  intro evs.
  assert (H : forall s, escaped (log (run evs s)) = escaped (log s)).
  { induction evs as [|ev evs IH]; intro s; simpl; [reflexivity|].
    rewrite IH. apply Hstep. }
  rewrite H. reflexivity.
Qed.

(** ** The React state *)

Section ReactOnly.

Variable P : App -> Prop.
Hypothesis HP : forall s s' : App,
    connectionState s' = connectionState s ->
    isMicOn s' = isMicOn s ->
    errorMsg s' = errorMsg s ->
    P s -> P s'.

Lemma react_fresh : preserves P fresh.
Proof. intros s H. apply HP with (s := s); [reflexivity | reflexivity | reflexivity | exact H]. Qed.

Lemma react_ai_live_connect (c : Closure) : preserves P (ai_live_connect c).
Proof. intros s H. apply HP with (s := s); [reflexivity | reflexivity | reflexivity | exact H]. Qed.

Lemma react_subscribe (p : PromiseId) (r : Reaction) : preserves P (subscribe p r).
Proof.
  intros s H. destruct (subscribe_frame p r s) as [h Hh]. unfold exec in Hh.
  rewrite Hh. apply HP with (s := s); [reflexivity | reflexivity | reflexivity | exact H].
Qed.

Lemma react_fulfil (p : PromiseId) (session : Session) : preserves P (fulfil p session).
Proof.
  intros s H. unfold fulfil, modify. simpl.
  destruct (promise_state p (platform s)) as [[rs|x]|]; try exact H.
  apply HP with (s := s); [reflexivity | reflexivity | reflexivity | exact H].
Qed.

Lemma react_stopAudioOutput : preserves P stopAudioOutput.
Proof. intros s H. rewrite stopAudioOutput_spec. apply HP with (s := s); [reflexivity | reflexivity | reflexivity | exact H]. Qed.

Lemma react_emit (e : Effect) : preserves P (emit e).
Proof. intros s H. apply HP with (s := s); [reflexivity | reflexivity | reflexivity | exact H]. Qed.

Lemma react_drain (s : App) : P s -> P (drain s).
Proof.
  intro H.
  destruct (job_result_frame (drain_result s)) as (Hc & Hm & He & _).
  apply HP with (s := s); [exact Hc | exact Hm | exact He | exact H].
Qed.

End ReactOnly.


Lemma react_only_mic (b : bool) : react_only (mic_is b).
Proof. unfold react_only, mic_is. intros. congruence. Qed.


Ltac react_side :=
  unfold state_is, mic_is, error_is; intros; simpl in *; assumption.

Ltac react_handler HP :=
  pose proof (react_fresh _ HP); pose proof (react_ai_live_connect _ HP);
  pose proof (react_subscribe _ HP); pose proof (react_fulfil _ HP);
  pose proof (react_stopAudioOutput _ HP); pose proof (react_emit _ HP);
  unfold handler, connectToGemini, connectToGemini_resume, connect_failed,
    onopen, onmessage, onmessage_resume, handle_interruption, decode_failed,
    schedule_start, schedule_track, onclose, onerror, disconnect, stopAudioInput,
    AudioNode_disconnect, onaudioprocess, onended, toggleMic,
    setConnectionState, setErrorMsg, setIsMicOn;
  preserving react_side ltac:(auto).

Lemma step_via_exec (f : App -> Prop) (s : App) (ev : Event) :
  react_only f -> f (exec (handler ev) s) -> f (step s ev).
Proof.
  intros HP H. unfold step. destruct (total_handler ev s) as [a Ha].
  rewrite (run_task_normal _ _ Ha). apply (react_drain _ HP). exact H.
Qed.



(** X4. Only the mute button writes [isMicOn]: [toggleMic] flips it, and no
    other event changes it -- neither hang-up, nor a remote close or error,
    nor a new connect attempt resets it, so the flag a call starts with is
    whatever the last call left. *)
Theorem mute_flag_table :
  forall (s : App) (ev : Event),
    isMicOn (step s ev)
    = match ev with
      | user_toggles_mic => negb (isMicOn s)
      | _ => isMicOn s
      end.
Proof.
  intros s ev.
  apply (step_via_exec
           (mic_is match ev with
                   | user_toggles_mic => negb (isMicOn s)
                   | _ => isMicOn s
                   end) s ev (react_only_mic _)).
  unfold mic_is.
  assert (Hkeep : forall ev0, preserves (mic_is (isMicOn s)) (handler ev0) ->
                              isMicOn (exec (handler ev0) s) = isMicOn s).
  { intros ev0 H. apply H. reflexivity. }
  destruct ev; try reflexivity;
    try (apply Hkeep; react_handler (react_only_mic (isMicOn s))).
Qed.

(** ** Connect attempts that fail *)

(** X5. A connect attempt that fails does nothing beyond reporting.  With the
    API key missing or empty [connectToGemini] never reaches [getUserMedia];
    with the microphone denied it stores no stream.  In both cases no session
    is requested (the platform and [sessionPromiseRef] are untouched), the
    only trace entry is the [console.error] of the exception, and capture and
    playback state are as before. *)
Theorem failed_connect_attempts_nothing :
  forall (s : App) (apiKey : option string) (r : bool) (e : Exn),
    truthy apiKey = false ->
    let s1 := exec (connectToGemini apiKey) s in
    let s2 := exec (connectToGemini_resume r (Throw e)) s in
    fst (connectToGemini apiKey s) = Normal false /\
    log s1 = log s ++ [console_error "" (JsError "API Key not found in environment variables")] /\
    log s2 = log s ++ [console_error "" e] /\
    (platform s1 = platform s /\ platform s2 = platform s) /\
    (sessionPromiseRef s1 = sessionPromiseRef s /\ sessionPromiseRef s2 = sessionPromiseRef s) /\
    (streamRef s1 = streamRef s /\ streamRef s2 = streamRef s) /\
    (audioSourcesRef s1 = audioSourcesRef s /\ audioSourcesRef s2 = audioSourcesRef s) /\
    (nextStartTimeRef s1 = nextStartTimeRef s /\ nextStartTimeRef s2 = nextStartTimeRef s).
Proof.
  intros s apiKey r e Hkey.
  unfold exec, connectToGemini, connectToGemini_resume, connect_failed,
    setErrorMsg, setConnectionState.
  js_unfold. rewrite Hkey. simpl. repeat split.
Qed.

(** X5 on the mounted component, the key being the empty string. *)
Lemma failed_connect_attempts_nothing_witness :
  truthy (Some EmptyString) = false /\
  fst (connectToGemini (Some EmptyString) initial) = Normal false /\
  platform (exec (connectToGemini (Some EmptyString)) initial) = platform initial.
Proof.
  assert (H : truthy (Some EmptyString) = false) by reflexivity.
  destruct (failed_connect_attempts_nothing initial (Some EmptyString) true
              (JsError "Permission denied") H)
    as (Hret & _ & _ & (Hpl & _) & _).
  split; [exact H|]. split; [exact Hret | exact Hpl].
Defined.

(** ** Releasing the capture side *)

Lemma with_jobs_same (h : Platform) : with_jobs (jobs h) h = h.
Proof. destruct h; reflexivity. Qed.

Lemma find_filtered_out (n : NodeId) (l : list (NodeId * PromiseId)) :
  find (fun np => Nat.eqb (fst np) n) (filter (not_node (Some n)) l) = None.
Proof.
  induction l as [|[m p] l IH]; simpl; [reflexivity|].
  destruct (Nat.eqb m n) eqn:E; simpl; [exact IH|]. rewrite E. exact IH.
Qed.

Lemma find_filter_none {A} (f g : A -> bool) (l : list A) :
  find f l = None -> find f (filter g l) = None.
Proof.
  induction l as [|x l IH]; simpl; [auto|].
  destruct (f x) eqn:E; [discriminate|]. intro H.
  destruct (g x); simpl; [rewrite E|]; auto.
Qed.

Lemma released_processor_gone (s : App) (n : NodeId) :
  processorRef s = Some n ->
  find (fun np => Nat.eqb (fst np) n) (processors_left s) = None.
Proof.
  intro H. unfold processors_left. rewrite H.
  apply find_filter_none. apply find_filtered_out.
Qed.

(** X6. [stopAudioInput] releases what the refs hold and is idempotent: after
    it the three capture refs are null, every stream it held has had its
    tracks stopped, every node it held has been disconnected, the script
    processor it held is out of the graph, and a second call changes
    nothing. *)
Theorem stopAudioInput_releases_once :
  forall s : App,
    let s' := exec stopAudioInput s in
    fst (stopAudioInput s) = Normal tt /\
    processorRef s' = None /\ sourceRef s' = None /\ streamRef s' = None /\
    (forall m, streamRef s = Some m -> In (track_stop m) (log s')) /\
    (forall n, sourceRef s = Some n -> In (node_disconnect n) (log s')) /\
    (forall n, processorRef s = Some n ->
               In (node_disconnect n) (log s') /\
               find (fun np => Nat.eqb (fst np) n) (processors (platform s')) = None) /\
    exec stopAudioInput s' = s'.
Proof.
  intro s. unfold exec. rewrite !stopAudioInput_spec. simpl fst. simpl snd.
  split; [reflexivity|]. split; [reflexivity|]. split; [reflexivity|].
  split; [reflexivity|].
  split; [|split; [|split]].
  - intros m Hm. unfold input_stopped, input_release. simpl. rewrite Hm.
    apply in_or_app. right. apply in_or_app. right. apply in_or_app. right.
    left. reflexivity.
  - intros n Hn. unfold input_stopped, input_release. simpl. rewrite Hn.
    apply in_or_app. right. apply in_or_app. right. apply in_or_app. left.
    left. reflexivity.
  - intros n Hn. split.
    + unfold input_stopped, input_release. simpl. rewrite Hn.
      apply in_or_app. right. apply in_or_app. left. left. reflexivity.
    + apply released_processor_gone. exact Hn.
  - destruct s as [cs mic em st src pr nx aus sp [pms prs js nid] lg].
    unfold input_stopped, input_release, processors_left, not_node. simpl.
    rewrite !filter_true, app_nil_r. reflexivity.
Qed.

(** X6 in the running call. *)
Lemma stopAudioInput_releases_once_witness :
  streamRef in_call = Some 0%nat /\
  In (track_stop 0%nat) (log (exec stopAudioInput in_call)).
Proof.
  assert (H : streamRef in_call = Some 0%nat) by reflexivity.
  destruct (stopAudioInput_releases_once in_call) as (_ & _ & _ & _ & Hst & _).
  split; [exact H | exact (Hst 0%nat H)].
Defined.

Lemma platform_drain (s : App) : platform (drain s) = with_jobs [] (platform s).
Proof.
  destruct (job_result_frame (drain_result s)) as (_ & _ & _ & _ & _ & _ & _ & _ & H).
  exact H.
Qed.

Lemma drain_idle (s : App) : jobs (platform s) = [] -> drain s = s.
Proof.
  intro H. unfold drain. rewrite H. simpl.
  rewrite <- H at 1. rewrite with_jobs_same. apply with_platform_same.
Qed.

Lemma jobs_step (s : App) (ev : Event) : jobs (platform (step s ev)) = [].
Proof.
  unfold step, run_task.
  destruct (handler ev s) as [[a|e] s1]; rewrite platform_drain; reflexivity.
Qed.

Lemma subscribe_processors (p : PromiseId) (r : Reaction) (s : App) :
  processors (platform (exec (subscribe p r) s)) = processors (platform s).
Proof.
  unfold subscribe. js_unfold. simpl.
  destruct (promise_state p (platform s)) as [[rs|x]|]; reflexivity.
Qed.

Lemma processors_after_disconnect (s : App) :
  processors (platform (exec disconnect s)) = processors_left s.
Proof.
  unfold exec. rewrite disconnect_spec.
  destruct (sessionPromiseRef s) as [p|]; [|reflexivity].
  change (snd (subscribe p await_in_disconnect (torn_down s)))
    with (exec (subscribe p await_in_disconnect) (torn_down s)).
  rewrite subscribe_processors. reflexivity.
Qed.

(** ** Outbound frames *)

Lemma sent_app (l1 l2 : list Effect) : sent (l1 ++ l2) = sent l1 ++ sent l2.
Proof. apply filter_app. Qed.

Lemma nth_error_update_other {A} (f : A -> A) (l : list A) (n m : nat) :
  n <> m -> nth_error (update_nth n f l) m = nth_error l m.
Proof.
  revert n m. induction l as [|x l IH]; intros [|n] [|m] H; simpl;
    try reflexivity; try contradiction.
  apply IH. intro E. apply H. f_equal. exact E.
Qed.

Lemma closure_of_set_promise (q p : PromiseId) (st : PromiseState) (h : Platform) :
  closure_of q (set_promise p st h) = closure_of q h.
Proof.
  unfold closure_of, set_promise. simpl.
  destruct (Nat.eq_dec p q) as [->|Hne].
  - rewrite nth_error_update_nth. destruct (nth_error (promises h) q) as [[c x]|]; reflexivity.
  - rewrite nth_error_update_other by exact Hne. reflexivity.
Qed.

Lemma tick_handler (s : App) (n : NodeId) (p : PromiseId) (f : Frame) :
  capturing s n p ->
  handler (capture_tick n f) s = subscribe p (then_send (createBlob f)) s.
Proof.
  intros [Hfind (c & Hc & Hmic)]. unfold handler. unfold bind at 1. unfold gets at 1.
  rewrite Hfind, Hc. unfold onaudioprocess. rewrite Hmic. reflexivity.
Qed.

(** One tick while the promise is fulfilled: the frame is sent in that task. *)
Lemma tick_fulfilled (s : App) (n : NodeId) (p : PromiseId) (session : Session) (f : Frame) :
  capturing s n p ->
  promise_state p (platform s) = Some (fulfilled session) ->
  jobs (platform s) = [] ->
  step s (capture_tick n f)
  = with_log (log s ++ [sendRealtimeInput p (createBlob f)]) s.
Proof.
  intros Hcap Hful Hjobs. unfold step, run_task. rewrite (tick_handler s n p f Hcap).
  destruct s as [cs mic em st src pr nx aus sp [pms prs js nid] lg].
  simpl in Hjobs. subst js.
  unfold subscribe, modify, drain, run_job, promise_state in *. simpl in *.
  rewrite Hful. simpl. rewrite Hful. reflexivity.
Qed.

(** One tick while the promise is pending: the frame joins the queue. *)
Lemma tick_pending (s : App) (n : NodeId) (p : PromiseId) (rs : list Reaction) (f : Frame) :
  capturing s n p ->
  promise_state p (platform s) = Some (pending rs) ->
  jobs (platform s) = [] ->
  step s (capture_tick n f)
  = with_platform (set_promise p (pending (rs ++ [then_send (createBlob f)])) (platform s)) s.
Proof.
  intros Hcap Hpend Hjobs. unfold step, run_task. rewrite (tick_handler s n p f Hcap).
  unfold subscribe, modify. rewrite Hpend.
  apply drain_idle. exact Hjobs.
Qed.

(** X8. While the session promise is fulfilled, the frames of any sequence of
    capture ticks are sent one per tick, each within its own tick, in capture
    order, and nothing else is sent. *)
Theorem frames_sent_in_capture_order :
  forall (frames : list Frame) (s : App) (n : NodeId) (p : PromiseId) (session : Session),
    capturing s n p ->
    promise_state p (platform s) = Some (fulfilled session) ->
    jobs (platform s) = [] ->
    sent (log (run (map (capture_tick n) frames) s))
    = sent (log s) ++ frames_sent p frames.
Proof.
  induction frames as [|f frames IH]; intros s n p session Hcap Hful Hjobs; simpl.
  - rewrite app_nil_r. reflexivity.
  - rewrite (tick_fulfilled s n p session f Hcap Hful Hjobs).
    rewrite (IH _ n p session); try assumption.
    simpl. rewrite sent_app, <- app_assoc. reflexivity.
Qed.

(** X8 in the running call: three ticks, three sends. *)
Lemma frames_sent_in_capture_order_witness :
  capturing in_call 2%nat 0%nat /\
  sent (log (run (map (capture_tick 2%nat) [11; 12; 13]%nat) in_call))
  = sent (log in_call) ++ frames_sent 0%nat [11; 12; 13]%nat.
Proof.
  assert (Hcap : capturing in_call 2%nat 0%nat).
  { split; [reflexivity|]. eexists. split; reflexivity. }
  split; [exact Hcap|].
  exact (frames_sent_in_capture_order [11; 12; 13]%nat in_call 2%nat 0%nat live_session
           Hcap eq_refl eq_refl).
Defined.

Lemma reaction_sends_app (p : PromiseId) (rs1 rs2 : list Reaction) :
  reaction_sends p (rs1 ++ rs2) = reaction_sends p rs1 ++ reaction_sends p rs2.
Proof. apply flat_map_app. Qed.

Lemma reaction_sends_frames (p : PromiseId) (frames : list Frame) :
  reaction_sends p (map (fun f => then_send (createBlob f)) frames) = frames_sent p frames.
Proof. induction frames as [|f frames IH]; simpl; [reflexivity | rewrite IH; reflexivity]. Qed.

(** Ticks while the promise is pending only grow its queue. *)
Lemma ticks_pending (frames : list Frame) :
  forall (s : App) (n : NodeId) (p : PromiseId) (rs : list Reaction),
    capturing s n p ->
    promise_state p (platform s) = Some (pending rs) ->
    jobs (platform s) = [] ->
    let s' := run (map (capture_tick n) frames) s in
    log s' = log s /\
    jobs (platform s') = [] /\
    promise_state p (platform s')
    = Some (pending (rs ++ map (fun f => then_send (createBlob f)) frames)).
Proof.
  induction frames as [|f frames IH]; intros s n p rs Hcap Hpend Hjobs; simpl.
  - rewrite app_nil_r. auto.
  - rewrite (tick_pending s n p rs f Hcap Hpend Hjobs).
    set (s1 := with_platform _ s).
    assert (Hcap1 : capturing s1 n p).
    { destruct Hcap as [Hfind (c & Hc & Hmic)]. split; [exact Hfind|].
      exists c. split; [|exact Hmic].
      unfold s1. simpl platform. rewrite closure_of_set_promise. exact Hc. }
    assert (Hpend1 : promise_state p (platform s1)
                     = Some (pending (rs ++ [then_send (createBlob f)]))).
    { unfold s1. simpl platform. eapply promise_state_set. exact Hpend. }
    destruct (IH s1 n p _ Hcap1 Hpend1 Hjobs) as (Hl & Hj & Hp).
    rewrite Hl, Hj, Hp, <- app_assoc. auto.
Qed.

(** The queued reactions of a fulfilled promise send in queue order. *)
Lemma settle_sends (p : PromiseId) (session : Session) (rs : list Reaction) :
  forall s : App,
    promise_state p (platform s) = Some (fulfilled session) ->
    sent (log (settle (map (pair p) rs) s)) = sent (log s) ++ reaction_sends p rs.
Proof.
  induction rs as [|r rs IH]; intros s Hful; simpl.
  - rewrite app_nil_r. reflexivity.
  - assert (Hpl : platform (run_job s (p, r)) = platform s).
    { destruct (job_result_frame (run_job_result s (p, r)))
        as (_ & _ & _ & _ & _ & _ & _ & _ & H). exact H. }
    fold (settle (map (pair p) rs) (run_job s (p, r))).
    rewrite IH by (rewrite Hpl; exact Hful).
    rewrite app_assoc. f_equal.
    unfold run_job. simpl fst. simpl snd. rewrite Hful.
    destruct r as [media|]; simpl.
    + rewrite sent_app. reflexivity.
    + unfold disconnect_resume, Session_close. js_unfold.
      destruct (close_raises session); simpl; rewrite sent_app; reflexivity.
Qed.

(** X9. While the session promise is still pending, capture ticks send
    nothing: their frames queue up behind whatever already waits on the
    promise.  When the promise is fulfilled, everything queued is sent in
    that one task, in the order it was queued -- so the frames arrive in
    capture order. *)
Theorem queued_frames_sent_on_fulfilment :
  forall (frames : list Frame) (s : App) (n : NodeId) (p : PromiseId)
         (rs : list Reaction) (session : Session),
    capturing s n p ->
    promise_state p (platform s) = Some (pending rs) ->
    jobs (platform s) = [] ->
    let s' := run (map (capture_tick n) frames) s in
    sent (log s') = sent (log s) /\
    sent (log (step s' (session_ready p session)))
    = sent (log s) ++ reaction_sends p rs ++ frames_sent p frames.
Proof.
  intros frames s n p rs session Hcap Hpend Hjobs s'.
  destruct (ticks_pending frames s n p rs Hcap Hpend Hjobs) as (Hl & Hj & Hp).
  fold s' in Hl, Hj, Hp.
  split; [rewrite Hl; reflexivity|].
  unfold step, handler, run_task, fulfil, modify. rewrite Hp, Hj. simpl app.
  unfold drain. simpl jobs. simpl platform.
  fold (settle (map (pair p) (rs ++ map (fun f => then_send (createBlob f)) frames))).
  rewrite (settle_sends p session).
  - simpl log. rewrite Hl, reaction_sends_app, reaction_sends_frames. reflexivity.
  - simpl platform.
    change (promise_state p (with_jobs [] ?h)) with (promise_state p h).
    change (promise_state p (with_jobs ?j ?h)) with (promise_state p h).
    eapply promise_state_set. exact Hp.
Qed.

(** X9 on a call whose socket has opened while the promise is still pending. *)
Lemma queued_frames_sent_on_fulfilment_witness :
  let opened := run [ user_selects_agent api_key;
                      microphone_settles true (Normal tt);
                      session_opens 0%nat ] initial in
  capturing opened 2%nat 0%nat /\
  sent (log (step (run (map (capture_tick 2%nat) [11; 12]%nat) opened)
                  (session_ready 0%nat live_session)))
  = frames_sent 0%nat [11; 12]%nat.
Proof.
  intro opened.
  assert (Hcap : capturing opened 2%nat 0%nat).
  { split; [reflexivity|]. eexists. split; reflexivity. }
  split; [exact Hcap|].
  exact (proj2 (queued_frames_sent_on_fulfilment [11; 12]%nat opened 2%nat 0%nat []
                  live_session Hcap eq_refl eq_refl)).
Defined.

(** ** Messages without audio *)

(** X10. A message that carries neither audio nor the interrupted flag is
    ignored: the handler returns without suspending and leaves the component
    exactly as it was -- the clock is not read into the cursor, nothing is
    decoded, nothing is logged.  An empty [data] string counts as no audio. *)
Theorem message_without_audio_is_ignored :
  forall (m : LiveServerMessage) (currentTime : Q) (decode_raises : option Exn) (s : App),
    truthy (inlineData m) = false ->
    interrupted m = false ->
    onmessage m currentTime decode_raises s = (Normal false, s).
Proof.
  intros m currentTime decode_raises s Haudio Hint.
  unfold onmessage, handle_interruption. rewrite Haudio, Hint. reflexivity.
Qed.

(** X10 for a message whose data is the empty string, in the playing call. *)
Lemma message_without_audio_is_ignored_witness :
  onmessage {| inlineData := Some EmptyString; interrupted := false |} 9
            (Some (JsError "unused")) playing
  = (Normal false, playing).
Proof.
  exact (message_without_audio_is_ignored
           {| inlineData := Some EmptyString; interrupted := false |} 9
           (Some (JsError "unused")) playing eq_refl eq_refl).
Defined.

Lemma audioSourcesRef_drain (s : App) : audioSourcesRef (drain s) = audioSourcesRef s.
Proof.
  destruct (job_result_frame (drain_result s)) as (_ & _ & _ & _ & _ & _ & _ & H & _).
  exact H.
Qed.

Lemma nextStartTimeRef_drain (s : App) : nextStartTimeRef (drain s) = nextStartTimeRef s.
Proof.
  destruct (job_result_frame (drain_result s)) as (_ & _ & _ & _ & _ & _ & H & _).
  exact H.
Qed.

(** X11. Barge-in stops everything.  In any state the event loop can reach,
    a message that carries the interrupted flag and no audio leaves the
    playback set empty and the cursor at 0, and after it no unit is playing
    or due to play: every unit that was started has ended or been stopped.
    The connection state is not touched. *)
Theorem interruption_stops_every_unit :
  forall (evs : list Event) (m : LiveServerMessage) (currentTime : Q)
         (decode_raises : option Exn),
    truthy (inlineData m) = false ->
    interrupted m = true ->
    let s := run evs initial in
    let s' := step s (message_arrives m currentTime decode_raises) in
    audioSourcesRef s' = [] /\
    nextStartTimeRef s' = 0%Q /\
    (forall n : NodeId, live n (log s') = false) /\
    connectionState s' = connectionState s.
Proof.
  intros evs m currentTime decode_raises Haudio Hint s s'.
  assert (Hh : handler (message_arrives m currentTime decode_raises) s
               = (Normal tt,
                  output_stopped (with_log (log s ++ [console_log "Interrupted by user"]) s))).
  { unfold handler, onmessage. rewrite Haudio. unfold bind at 1. unfold bind at 1.
    rewrite handle_interruption_spec, Hint. reflexivity. }
  assert (Hset : audioSourcesRef s' = []).
  { unfold s', step, run_task. rewrite Hh. rewrite audioSourcesRef_drain. reflexivity. }
  split; [exact Hset|]. split; [|split].
  - unfold s', step, run_task. rewrite Hh. rewrite nextStartTimeRef_drain. reflexivity.
  - intro n. destruct (live n (log s')) eqn:E; [|reflexivity].
    exfalso.
    assert (Ht : tracked s') by (apply step_tracked; apply run_tracked; apply initial_tracked).
    specialize (Ht n E). rewrite Hset in Ht. exact Ht.
  - unfold s', step, run_task. rewrite Hh. rewrite drain_connectionState. reflexivity.
Qed.

(** X11 in the playing call. *)
Lemma interruption_stops_every_unit_witness :
  audioSourcesRef (run playing_events initial) = [3%nat] /\
  audioSourcesRef
    (step (run playing_events initial)
          (message_arrives {| inlineData := None; interrupted := true |} 2 None)) = [].
Proof.
  split; [vm_compute; reflexivity|].
  exact (proj1 (interruption_stops_every_unit playing_events
                  {| inlineData := None; interrupted := true |} 2 None eq_refl eq_refl)).
Defined.

(** ** Times are never negative *)

Ltac times_side :=
  unfold times_nonneg;
  let H1 := fresh "H1" in let H2 := fresh "H2" in
  intros ? [H1 H2]; simpl in *;
  rewrite ?scheduled_app, ?scheduled_stops_of; simpl; rewrite ?app_nil_r;
  split;
  [ first [ assumption
          | apply Qle_refl
          | eapply Qle_trans; [exact H1 | apply Q.le_max_l] ]
  | assumption ].

Lemma times_fresh : preserves times_nonneg fresh.
Proof. intros s H. exact H. Qed.

Lemma times_ai_live_connect (c : Closure) : preserves times_nonneg (ai_live_connect c).
Proof. unfold preserves, ai_live_connect. times_side. Qed.

Lemma times_subscribe (p : PromiseId) (r : Reaction) : preserves times_nonneg (subscribe p r).
Proof.
  intros s H. destruct (subscribe_frame p r s) as [h Hh]. unfold exec in Hh.
  rewrite Hh. exact H.
Qed.

Lemma times_fulfil (p : PromiseId) (session : Session) :
  preserves times_nonneg (fulfil p session).
Proof.
  intros s H. unfold fulfil, modify. simpl.
  destruct (promise_state p (platform s)) as [[rs|x]|]; exact H.
Qed.

Lemma times_stopAudioOutput : preserves times_nonneg stopAudioOutput.
Proof. unfold preserves. intro s. rewrite stopAudioOutput_spec. revert s. times_side. Qed.

Lemma times_handle_interruption (m : LiveServerMessage) :
  preserves times_nonneg (handle_interruption m).
Proof.
  pose proof times_stopAudioOutput.
  unfold handle_interruption, emit. preserving times_side ltac:(auto).
Qed.

Lemma times_unit_scheduled (audioBuffer : AudioBuffer) (s : App) :
  (0 <= duration audioBuffer)%Q -> times_nonneg s ->
  times_nonneg (unit_scheduled audioBuffer s).
Proof.
  intros Hd [H1 H2]. unfold times_nonneg, unit_scheduled. simpl.
  rewrite scheduled_app. simpl. split.
  - replace 0%Q with (0 + 0)%Q by reflexivity. apply Qplus_le_compat; assumption.
  - apply Forall_app. split; [exact H2|]. constructor; [exact H1 | constructor].
Qed.

Lemma times_handler (ev : Event) :
  sane_durations ev -> preserves times_nonneg (handler ev).
Proof.
  intro Hev.
  pose proof times_fresh. pose proof times_ai_live_connect.
  pose proof times_subscribe. pose proof times_fulfil.
  pose proof times_stopAudioOutput. pose proof times_handle_interruption.
  destruct ev as [apiKey|r mic|p|p session|m t d|m decoded| |e|n f|n| | ].
  6:{ intros s Hs. unfold handler. rewrite onmessage_resume_spec.
      apply times_handle_interruption.
      destruct decoded as [audioBuffer|e].
      - apply times_unit_scheduled; assumption.
      - revert s Hs. times_side. }
  all: unfold handler, connectToGemini, connectToGemini_resume, connect_failed,
    onopen, onmessage, decode_failed, onclose, onerror, disconnect, stopAudioInput,
    AudioNode_disconnect, onaudioprocess, onended, toggleMic,
    setConnectionState, setErrorMsg, setIsMicOn, emit;
    preserving times_side ltac:(auto).
Qed.

Lemma times_drain (s : App) : times_nonneg s -> times_nonneg (drain s).
Proof.
  intros [H1 H2].
  destruct (drain_result s) as (l & (_ & Hq & _) & _ & Hs).
  unfold times_nonneg.
  destruct Hs as [-> | ->]; simpl; rewrite scheduled_app, Hq, app_nil_r; auto.
Qed.

Lemma times_step (s : App) (ev : Event) :
  sane_durations ev -> times_nonneg s -> times_nonneg (step s ev).
Proof.
  intros Hev H.
  apply (preserves_run_task times_nonneg (handler ev) s).
  - exact times_drain.
  - apply times_handler. exact Hev.
  - apply total_handler.
  - exact H.
Qed.

(** X12. Scheduling never goes below time 0.  As long as decoded buffers have
    non-negative durations, then in every state the event loop can reach --
    whatever the clock readings, also after flushes and reconnects -- the
    cursor is at least 0 and every start time that was passed to
    [source.start] is at least 0. *)
Theorem start_times_never_negative :
  forall evs : list Event,
    Forall sane_durations evs ->
    (0 <= nextStartTimeRef (run evs initial))%Q /\
    (forall t d : Q, In (t, d) (scheduled (log (run evs initial))) -> (0 <= t)%Q).
Proof.
  intros evs Hevs.
  assert (H : forall s, times_nonneg s -> times_nonneg (run evs s)).
  { induction Hevs as [|ev evs Hev _ IH]; intros s Hs; simpl; [exact Hs|].
    apply IH. apply times_step; assumption. }
  destruct (H initial) as [H1 H2].
  { split; [apply Qle_refl | constructor]. }
  split; [exact H1|].
  intros t d Hin. rewrite Forall_forall in H2. exact (H2 (t, d) Hin).
Qed.

(** X12 on the run that leads to the playing call. *)
Lemma start_times_never_negative_witness :
  Forall sane_durations playing_events /\
  (0 <= nextStartTimeRef (run playing_events initial))%Q.
Proof.
  assert (H : Forall sane_durations playing_events).
  { repeat constructor. simpl. discriminate. }
  split; [exact H|].
  exact (proj1 (start_times_never_negative playing_events H)).
Defined.

(** ** Hanging up twice *)

Lemma torn_down_fixed (s : App) :
  connectionState s = disconnected ->
  processorRef s = None -> sourceRef s = None -> streamRef s = None ->
  audioSourcesRef s = [] -> nextStartTimeRef s = 0%Q ->
  torn_down s = s.
Proof.
  destruct s as [cs mic em st src pr nx aus sp [pms prs js nid] lg].
  simpl. intros -> -> -> -> -> ->.
  unfold torn_down, output_stopped, input_stopped, input_release, processors_left,
    not_node, stops_of. simpl.
  rewrite !filter_true, !app_nil_r. reflexivity.
Qed.

(** A queue that holds one job of a fulfilled promise. *)
Lemma drain_one (s : App) (p : PromiseId) (r : Reaction) (session : Session) :
  jobs (platform s) = [] ->
  promise_state p (platform s) = Some (fulfilled session) ->
  drain (with_platform (with_jobs (jobs (platform s) ++ [(p, r)]) (platform s)) s)
  = match react p r session s with
    | (Normal _, s') => s'
    | (Throw e, s') => exec (emit (unhandled e)) s'
    end.
Proof.
  destruct s as [cs mic em st src pr nx aus sp [pms prs js nid] lg].
  simpl. intros -> Hful.
  unfold drain, run_job, promise_state in *. simpl in *. rewrite Hful. reflexivity.
Qed.

Lemma disconnect_resume_spec (p : PromiseId) (session : Session) (s : App) :
  disconnect_resume p session s
  = (Normal tt, with_sessionPromiseRef None (with_log (log s ++ [closing p session]) s)).
Proof.
  unfold disconnect_resume, Session_close, closing. js_unfold.
  destruct (close_raises session); reflexivity.
Qed.

(** Hang-up with the session promise fulfilled, as one task. *)
Lemma hang_up_fulfilled (s : App) (p : PromiseId) (session : Session) :
  sessionPromiseRef s = Some p ->
  promise_state p (platform s) = Some (fulfilled session) ->
  jobs (platform s) = [] ->
  step s user_hangs_up
  = with_sessionPromiseRef None
      (with_log (log (torn_down s) ++ [closing p session]) (torn_down s)).
Proof.
  intros Hp Hful Hjobs. unfold step, handler.
  rewrite (run_task_normal _ _ (disconnect_returns s)).
  rewrite (@disconnect_exec s p Hp).
  assert (Hful' : promise_state p (platform (torn_down s)) = Some (fulfilled session))
    by (rewrite promise_state_torn_down; exact Hful).
  assert (Hjobs' : jobs (platform (torn_down s)) = []) by exact Hjobs.
  rewrite (@subscribe_fulfilled p await_in_disconnect (torn_down s) session Hful').
  generalize dependent (torn_down s). intros td Hful' Hjobs'.
  rewrite (drain_one td p await_in_disconnect session Hjobs' Hful').
  unfold react. rewrite disconnect_resume_spec. reflexivity.
Qed.

(** Hang-up with no session promise, as one task. *)
Lemma hang_up_without_session (s : App) :
  sessionPromiseRef s = None ->
  jobs (platform s) = [] ->
  step s user_hangs_up = torn_down s.
Proof.
  intros Hp Hjobs. unfold step, handler.
  rewrite (run_task_normal _ _ (disconnect_returns s)).
  unfold exec. rewrite disconnect_spec, Hp. simpl snd.
  apply drain_idle. exact Hjobs.
Qed.

Lemma closes_app (l1 l2 : list Effect) : closes (l1 ++ l2) = closes l1 ++ closes l2.
Proof. apply filter_app. Qed.

Lemma closes_torn_down (s : App) : closes (log (torn_down s)) = closes (log s).
Proof.
  unfold torn_down, output_stopped, input_stopped. simpl.
  rewrite !closes_app.
  assert (H1 : closes (input_release (with_connectionState disconnected s)) = []).
  { unfold input_release. simpl.
    destruct (processorRef s), (sourceRef s), (streamRef s); reflexivity. }
  rewrite H1. unfold stops_of.
  match goal with |- context [map source_stop ?l] =>
    assert (H2 : closes (map source_stop l) = []) by (induction l; simpl; auto) end.
  rewrite H2, !app_nil_r. reflexivity.
Qed.

(** X13. Hanging up a call whose session promise is fulfilled closes the
    session once and for all: [session.close()] is called exactly once (a
    warning is logged instead if it raises), [sessionPromiseRef] is cleared,
    and a second hang-up is a no-op -- it finds nothing to release, nothing
    to stop and no session to close, and leaves the component as the first
    one left it. *)
Theorem hang_up_closes_session_once :
  forall (s : App) (p : PromiseId) (session : Session),
    sessionPromiseRef s = Some p ->
    promise_state p (platform s) = Some (fulfilled session) ->
    jobs (platform s) = [] ->
    let s1 := step s user_hangs_up in
    sessionPromiseRef s1 = None /\
    closes (log s1) = closes (log s) ++ closes [closing p session] /\
    (forall e, close_raises session = Some e ->
               In (console_warn "Error closing session" e) (log s1)) /\
    step s1 user_hangs_up = s1.
Proof.
  intros s p session Hp Hful Hjobs s1.
  assert (Hs1 : s1 = with_sessionPromiseRef None
                       (with_log (log (torn_down s) ++ [closing p session]) (torn_down s)))
    by (apply hang_up_fulfilled; assumption).
  split; [rewrite Hs1; reflexivity|].
  assert (Hlog : log s1 = log (torn_down s) ++ [closing p session])
    by (rewrite Hs1; reflexivity).
  split; [rewrite Hlog, closes_app, closes_torn_down; reflexivity|].
  split.
  - intros e He. rewrite Hlog. apply in_or_app. right.
    unfold closing. rewrite He. left. reflexivity.
  - rewrite hang_up_without_session.
    + apply torn_down_fixed; rewrite Hs1; reflexivity.
    + rewrite Hs1; reflexivity.
    + apply jobs_step.
Qed.

(** X13 in the running call. *)
Lemma hang_up_closes_session_once_witness :
  sessionPromiseRef in_call = Some 0%nat /\
  closes (log (step in_call user_hangs_up)) = [session_close 0%nat] /\
  step (step in_call user_hangs_up) user_hangs_up = step in_call user_hangs_up.
Proof.
  assert (H1 : sessionPromiseRef in_call = Some 0%nat) by reflexivity.
  destruct (hang_up_closes_session_once in_call 0%nat live_session H1 eq_refl eq_refl)
    as (_ & Hc & _ & Hidem).
  split; [exact H1|]. split; [exact Hc | exact Hidem].
Defined.

(** ** A unit that plays to its end *)

Ltac ids_side :=
  unfold ids_bounded; intros; simpl in *; assumption.

Lemma ids_weaken (s s' : App) :
  audioSourcesRef s' = audioSourcesRef s ->
  (next_id (platform s) <= next_id (platform s'))%nat ->
  ids_bounded s -> ids_bounded s'.
Proof.
  unfold ids_bounded. intros -> Hle H.
  eapply Forall_impl; [|exact H]. simpl. intros n Hn. lia.
Qed.

Lemma ids_fresh : preserves ids_bounded fresh.
Proof. intros s H. apply (ids_weaken s); simpl; auto. Qed.

Lemma ids_ai_live_connect (c : Closure) : preserves ids_bounded (ai_live_connect c).
Proof. intros s H. exact H. Qed.

Lemma ids_subscribe (p : PromiseId) (r : Reaction) : preserves ids_bounded (subscribe p r).
Proof.
  intros s H. unfold subscribe, modify. simpl.
  destruct (promise_state p (platform s)) as [[rs|x]|]; exact H.
Qed.

Lemma ids_fulfil (p : PromiseId) (session : Session) : preserves ids_bounded (fulfil p session).
Proof.
  intros s H. unfold fulfil, modify. simpl.
  destruct (promise_state p (platform s)) as [[rs|x]|]; exact H.
Qed.

Lemma ids_stopAudioOutput : preserves ids_bounded stopAudioOutput.
Proof. intros s H. rewrite stopAudioOutput_spec. constructor. Qed.

Lemma ids_handle_interruption (m : LiveServerMessage) :
  preserves ids_bounded (handle_interruption m).
Proof.
  pose proof ids_stopAudioOutput.
  unfold handle_interruption, emit. preserving ids_side ltac:(auto).
Qed.

Lemma Forall_Set_add (P : NodeId -> Prop) (n : NodeId) (xs : list NodeId) :
  P n -> Forall P xs -> Forall P (Set_add n xs).
Proof.
  intros Hn Hxs. unfold Set_add. destruct (existsb (Nat.eqb n) xs); [exact Hxs|].
  apply Forall_app. split; [exact Hxs | constructor; [exact Hn | constructor]].
Qed.

Lemma ids_unit_scheduled (audioBuffer : AudioBuffer) (s : App) :
  ids_bounded s -> ids_bounded (unit_scheduled audioBuffer s).
Proof.
  unfold ids_bounded, unit_scheduled. simpl. intro H.
  apply Forall_Set_add; [lia|].
  eapply Forall_impl; [|exact H]. simpl. intros n Hn. lia.
Qed.

Lemma ids_onended (n : NodeId) : preserves ids_bounded (onended n).
Proof.
  intros s H. unfold onended, ids_bounded, Set_delete in *. js_unfold. simpl.
  apply Forall_forall. intros m Hm. apply filter_In in Hm. destruct Hm as [Hm _].
  rewrite Forall_forall in H. exact (H m Hm).
Qed.

Lemma ids_handler (ev : Event) : preserves ids_bounded (handler ev).
Proof.
  pose proof ids_fresh. pose proof ids_ai_live_connect.
  pose proof ids_subscribe. pose proof ids_fulfil.
  pose proof ids_stopAudioOutput. pose proof ids_handle_interruption.
  pose proof ids_onended.
  destruct ev as [apiKey|r mic|p|p session|m t d|m decoded| |e|n f|n| | ].
  6:{ intros s Hs. unfold handler. rewrite onmessage_resume_spec.
      apply ids_handle_interruption.
      destruct decoded as [audioBuffer|e];
        [apply ids_unit_scheduled; exact Hs | exact Hs]. }
  all: unfold handler, connectToGemini, connectToGemini_resume, connect_failed,
    onopen, onmessage, decode_failed, onclose, onerror, disconnect, stopAudioInput,
    AudioNode_disconnect, onaudioprocess, toggleMic,
    setConnectionState, setErrorMsg, setIsMicOn, emit;
    preserving ids_side ltac:(auto).
Qed.

Lemma ids_drain (s : App) : ids_bounded s -> ids_bounded (drain s).
Proof.
  intro H.
  destruct (job_result_frame (drain_result s)) as (_ & _ & _ & _ & _ & _ & _ & Ha & Hp).
  unfold ids_bounded. rewrite Ha, Hp. exact H.
Qed.

Lemma ids_run (evs : list Event) : ids_bounded (run evs initial).
Proof.
  assert (H : forall s, ids_bounded s -> ids_bounded (run evs s)).
  { induction evs as [|ev evs IH]; intros s Hs; simpl; [exact Hs|].
    apply IH.
    apply (preserves_run_task ids_bounded (handler ev) s);
      [exact ids_drain | apply ids_handler | apply total_handler | exact Hs]. }
  apply H. constructor.
Qed.

Lemma Set_delete_absent (n : NodeId) (xs : list NodeId) :
  ~ In n xs -> Set_delete n xs = xs.
Proof.
  intro H. unfold Set_delete. induction xs as [|x xs IH]; simpl; [reflexivity|].
  destruct (Nat.eqb x n) eqn:E; simpl.
  - exfalso. apply H. left. apply Nat.eqb_eq. exact E.
  - rewrite IH; [reflexivity|]. intro Hin. apply H. right. exact Hin.
Qed.

Lemma Set_delete_add (n : NodeId) (xs : list NodeId) :
  ~ In n xs -> Set_delete n (Set_add n xs) = xs.
Proof.
  intro H. unfold Set_add.
  destruct (existsb (Nat.eqb n) xs) eqn:E.
  - exfalso. apply existsb_exists in E. destruct E as (x & Hx & Heq).
    apply Nat.eqb_eq in Heq. subst. exact (H Hx).
  - unfold Set_delete. rewrite filter_app. simpl. rewrite Nat.eqb_refl. simpl.
    rewrite app_nil_r. apply Set_delete_absent. exact H.
Qed.

(** X15. A unit that plays to its end leaves no trace in the set.  In any
    state the event loop can reach, enqueueing a chunk and then receiving the
    ['ended'] event of the node it created leaves the playback set exactly as
    it was before the chunk -- the unit is removed, every other unit stays --
    while the cursor remains advanced past the unit. *)
Theorem ended_unit_leaves_the_set :
  forall (evs : list Event) (a : Arrival),
    plays a ->
    let s := run evs initial in
    let n := next_id (platform s) in
    let s' := exec (onended n) (exec (enqueue a) s) in
    In n (audioSourcesRef (exec (enqueue a) s)) /\
    audioSourcesRef s' = audioSourcesRef s /\
    nextStartTimeRef s'
    = (Qmax (nextStartTimeRef s) (a_currentTime a) + duration (a_decoded a))%Q.
Proof.
  intros evs a Ha s n s'.
  destruct (enqueue_effect s Ha) as (_ & Hnext & _ & Hset).
  assert (Hfresh : ~ In n (audioSourcesRef s)).
  { intro Hin. pose proof (ids_run evs) as Hb. fold s in Hb.
    unfold ids_bounded in Hb. rewrite Forall_forall in Hb.
    specialize (Hb n Hin). unfold n in Hb. lia. }
  split; [rewrite Hset; apply In_Set_add|].
  unfold s', onended. js_unfold. simpl.
  rewrite Hset, Hnext. split; [apply Set_delete_add; exact Hfresh | reflexivity].
Qed.

(** X15 in the playing call: a second chunk is enqueued and ends. *)
Lemma ended_unit_leaves_the_set_witness :
  audioSourcesRef
    (exec (onended (next_id (platform (run playing_events initial))))
       (exec (enqueue {| a_message := audio_message; a_currentTime := 2;
                         a_decoded := {| duration := 1 |} |})
             (run playing_events initial)))
  = audioSourcesRef (run playing_events initial).
Proof.
  assert (H : plays {| a_message := audio_message; a_currentTime := 2;
                       a_decoded := {| duration := 1 |} |}) by (split; reflexivity).
  exact (proj1 (proj2 (ended_unit_leaves_the_set playing_events _ H))).
Defined.

(** ** The mute button during a call *)

Lemma run_job_mic (b : bool) (s : App) (j : PromiseId * Reaction) :
  run_job (with_isMicOn b s) j = with_isMicOn b (run_job s j).
Proof.
  unfold run_job. simpl platform.
  destruct (promise_state (fst j) (platform s)) as [[rs|session]|]; try reflexivity.
  destruct j as [p [media|]]; simpl; [reflexivity|].
  rewrite !disconnect_resume_spec. reflexivity.
Qed.

Lemma settle_mic (b : bool) (js : list (PromiseId * Reaction)) (s : App) :
  settle js (with_isMicOn b s) = with_isMicOn b (settle js s).
Proof.
  revert s. induction js as [|j js IH]; intro s; simpl; [reflexivity|].
  fold (settle js (run_job (with_isMicOn b s) j)). fold (settle js (run_job s j)).
  rewrite run_job_mic. apply IH.
Qed.

Lemma drain_mic (b : bool) (s : App) : drain (with_isMicOn b s) = with_isMicOn b (drain s).
Proof.
  unfold drain. simpl platform.
  exact (settle_mic b (jobs (platform s)) (with_platform (with_jobs [] (platform s)) s)).
Qed.

Lemma tick_handler_mic (b : bool) (s : App) (n : NodeId) (f : Frame) :
  handler (capture_tick n f) (with_isMicOn b s)
  = (fst (handler (capture_tick n f) s),
     with_isMicOn b (snd (handler (capture_tick n f) s))).
Proof.
  unfold handler, onaudioprocess, subscribe. js_unfold. simpl.
  destruct (find (fun np => Nat.eqb (fst np) n) (processors (platform s))) as [[m p]|];
    [|reflexivity].
  destruct (closure_of p (platform s)) as [c|]; [|reflexivity].
  destruct (cl_isMicOn c); simpl; [|reflexivity].
  destruct (promise_state p (platform s)) as [[rs|session]|]; reflexivity.
Qed.

Lemma tick_mic (b : bool) (s : App) (n : NodeId) (f : Frame) :
  step (with_isMicOn b s) (capture_tick n f) = with_isMicOn b (step s (capture_tick n f)).
Proof.
  unfold step, run_task. rewrite tick_handler_mic.
  destruct (handler (capture_tick n f) s) as [[a|e] s1]; simpl fst; simpl snd.
  - apply drain_mic.
  - exact (drain_mic b (exec (emit (unhandled e)) s1)).
Qed.

Lemma toggles_only_flip (k : nat) (s : App) :
  jobs (platform s) = [] ->
  exists b : bool, run (repeat user_toggles_mic k) s = with_isMicOn b s.
Proof.
  revert s. induction k as [|k IH]; intros s Hjobs; simpl.
  - exists (isMicOn s). destruct s; reflexivity.
  - assert (Hstep : step s user_toggles_mic = with_isMicOn (negb (isMicOn s)) s).
    { unfold step, run_task, handler. rewrite toggleMic_spec.
      apply drain_idle. exact Hjobs. }
    rewrite Hstep. destruct (IH (with_isMicOn (negb (isMicOn s)) s) Hjobs) as [b Hb].
    exists b. rewrite Hb. reflexivity.
Qed.

(** X16. During a call the mute button has no effect on what is transmitted:
    after any number of clicks on it, a capture tick encodes and sends -- or
    drops -- its frame exactly as it would have without the clicks.  What
    decides is the [isMicOn] of the render that started the call; the clicks
    only change the state variable. *)
Theorem mute_clicks_do_not_reach_capture :
  forall (k : nat) (s : App) (n : NodeId) (inputData : Frame),
    jobs (platform s) = [] ->
    let clicked := run (repeat user_toggles_mic k) s in
    log (step clicked (capture_tick n inputData)) = log (step s (capture_tick n inputData)) /\
    platform (step clicked (capture_tick n inputData))
    = platform (step s (capture_tick n inputData)).
Proof.
  intros k s n inputData Hjobs clicked.
  destruct (toggles_only_flip k s Hjobs) as [b Hb].
  unfold clicked. rewrite Hb, tick_mic. split; reflexivity.
Qed.

(** X16 in the running call: one click, then a tick. *)
Lemma mute_clicks_do_not_reach_capture_witness :
  jobs (platform in_call) = [] /\
  log (step (run (repeat user_toggles_mic 1) in_call) (capture_tick 2%nat 7%nat))
  = log (step in_call (capture_tick 2%nat 7%nat)).
Proof.
  assert (H : jobs (platform in_call) = []) by reflexivity.
  split; [exact H|].
  exact (proj1 (mute_clicks_do_not_reach_capture 1 in_call 2%nat 7%nat H)).
Defined.

(** ** Scheduling on the event loop *)

Lemma scheduled_drain (s : App) : scheduled (log (drain s)) = scheduled (log s).
Proof.
  destruct (drain_result s) as (l & (_ & Hq & _) & _ & [-> | ->]); simpl;
    rewrite scheduled_app, Hq, app_nil_r; reflexivity.
Qed.

(** The first segment of [onmessage] for a message with audio: the cursor is
    raised to the clock. *)
Lemma step_arrives (s : App) (m : LiveServerMessage) (t : Q) :
  truthy (inlineData m) = true ->
  step s (message_arrives m t None)
  = drain (with_nextStartTimeRef (Qmax (nextStartTimeRef s) t) s).
Proof.
  intro Haudio. unfold step, run_task, handler, onmessage. rewrite Haudio. reflexivity.
Qed.

(** The resumption of [onmessage] with a decoded buffer and no interruption:
    the unit starts at the cursor. *)
Lemma step_settles (s : App) (m : LiveServerMessage) (audioBuffer : AudioBuffer) :
  interrupted m = false ->
  step s (decode_settles m (Normal audioBuffer)) = drain (unit_scheduled audioBuffer s).
Proof.
  intro Hint. unfold step, run_task, handler.
  rewrite onmessage_resume_spec, handle_interruption_spec, Hint. reflexivity.
Qed.

Ltac chain_side :=
  unfold chained_since;
  let new := fresh "new" in
  let Hs := fresh "Hs" in let Hw := fresh "Hw" in let Hc := fresh "Hc" in
  intros ? (new & Hs & Hw & Hc); exists new; simpl in *;
  rewrite ?scheduled_app; simpl; rewrite ?app_nil_r;
  repeat split; try assumption;
  try (eapply covered_le; [apply Q.le_max_l | eassumption]).

Lemma chain_fresh (old : list (Q * Q)) : preserves (chained_since old) fresh.
Proof. intros s H. exact H. Qed.

Lemma chain_ai_live_connect (old : list (Q * Q)) (c : Closure) :
  preserves (chained_since old) (ai_live_connect c).
Proof. unfold preserves, ai_live_connect. chain_side. Qed.

Lemma chain_subscribe (old : list (Q * Q)) (p : PromiseId) (r : Reaction) :
  preserves (chained_since old) (subscribe p r).
Proof.
  intros s H. destruct (subscribe_frame p r s) as [h Hh]. unfold exec in Hh.
  rewrite Hh. exact H.
Qed.

Lemma chain_fulfil (old : list (Q * Q)) (p : PromiseId) (session : Session) :
  preserves (chained_since old) (fulfil p session).
Proof.
  intros s H. unfold fulfil, modify. simpl.
  destruct (promise_state p (platform s)) as [[rs|x]|]; exact H.
Qed.

Lemma chain_unit_scheduled (old : list (Q * Q)) (audioBuffer : AudioBuffer) (s : App) :
  chained_since old s -> chained_since old (unit_scheduled audioBuffer s).
Proof.
  intros (new & Hs & Hw & Hc).
  exists (new ++ [(nextStartTimeRef s, duration audioBuffer)]).
  unfold unit_scheduled. simpl. rewrite scheduled_app, Hs. simpl.
  rewrite <- app_assoc, rev_app_distr. simpl. repeat split.
  - destruct (rev new) as [|[t d] older]; simpl in *; auto.
  - apply Qle_refl.
Qed.

Lemma chain_drain (old : list (Q * Q)) (s : App) :
  chained_since old s -> chained_since old (drain s).
Proof.
  intros (new & Hs & Hw & Hc). exists new.
  rewrite scheduled_drain, nextStartTimeRef_drain. auto.
Qed.

Lemma chain_handler (old : list (Q * Q)) (ev : Event) :
  may_flush ev = false -> preserves (chained_since old) (handler ev).
Proof.
  intro Hev.
  pose proof (chain_fresh old). pose proof (chain_ai_live_connect old).
  pose proof (chain_subscribe old). pose proof (chain_fulfil old).
  destruct ev as [apiKey|r mic|p|p session|m t d|m decoded| |e|n f|n| | ];
    simpl in Hev; try discriminate Hev.
  5:{ unfold handler, onmessage, handle_interruption, decode_failed, emit.
      rewrite Hev. cbv beta iota.
      preserving chain_side ltac:(auto). }
  5:{ intros s Hs. unfold handler.
      rewrite onmessage_resume_spec, handle_interruption_spec, Hev. simpl snd.
      destruct decoded as [audioBuffer|e].
      - apply chain_unit_scheduled. exact Hs.
      - revert s Hs. chain_side. }
  all: unfold handler, connectToGemini, connectToGemini_resume, connect_failed,
    onopen, onclose, onaudioprocess, onended, toggleMic,
    setConnectionState, setErrorMsg, setIsMicOn, emit;
    preserving chain_side ltac:(auto).
Qed.

Lemma chain_step (old : list (Q * Q)) (s : App) (ev : Event) :
  may_flush ev = false -> chained_since old s -> chained_since old (step s ev).
Proof.
  intros Hev H.
  apply (preserves_run_task (chained_since old) (handler ev) s).
  - exact (chain_drain old).
  - apply chain_handler. exact Hev.
  - apply total_handler.
  - exact H.
Qed.

Lemma chain_run (old : list (Q * Q)) (evs : list Event) :
  Forall (fun ev => may_flush ev = false) evs ->
  forall s : App, chained_since old s -> chained_since old (run evs s).
Proof.
  induction 1 as [|ev evs Hev _ IH]; intros s Hs; simpl; [exact Hs|].
  apply IH. apply chain_step; assumption.
Qed.

Ltac cursor_side :=
  unfold cursor_at_least; intros; simpl in *; try assumption;
  try (eapply Qle_trans; [eassumption | apply Q.le_max_l]).

Lemma cursor_fresh (c : Q) : preserves (cursor_at_least c) fresh.
Proof. intros s H. exact H. Qed.

Lemma cursor_ai_live_connect (c : Q) (cl : Closure) :
  preserves (cursor_at_least c) (ai_live_connect cl).
Proof. intros s H. exact H. Qed.

Lemma cursor_subscribe (c : Q) (p : PromiseId) (r : Reaction) :
  preserves (cursor_at_least c) (subscribe p r).
Proof.
  intros s H. destruct (subscribe_frame p r s) as [h Hh]. unfold exec in Hh.
  rewrite Hh. exact H.
Qed.

Lemma cursor_fulfil (c : Q) (p : PromiseId) (session : Session) :
  preserves (cursor_at_least c) (fulfil p session).
Proof.
  intros s H. unfold fulfil, modify. simpl.
  destruct (promise_state p (platform s)) as [[rs|x]|]; exact H.
Qed.

Lemma cursor_handler (c : Q) (ev : Event) :
  may_flush ev = false -> sane_durations ev ->
  preserves (cursor_at_least c) (handler ev).
Proof.
  intros Hev Hsane.
  pose proof (cursor_fresh c). pose proof (cursor_ai_live_connect c).
  pose proof (cursor_subscribe c). pose proof (cursor_fulfil c).
  destruct ev as [apiKey|r mic|p|p session|m t d|m decoded| |e|n f|n| | ];
    simpl in Hev; try discriminate Hev.
  5:{ unfold handler, onmessage, handle_interruption, decode_failed, emit.
      rewrite Hev. cbv beta iota.
      preserving cursor_side ltac:(auto). }
  5:{ intros s Hs. unfold handler.
      rewrite onmessage_resume_spec, handle_interruption_spec, Hev. simpl snd.
      destruct decoded as [audioBuffer|e]; [|exact Hs].
      unfold cursor_at_least, unit_scheduled in *. simpl in *.
      eapply Qle_trans; [exact Hs|].
      rewrite <- (Qplus_0_r (nextStartTimeRef s)) at 1.
      apply Qplus_le_compat; [apply Qle_refl | exact Hsane]. }
  all: unfold handler, connectToGemini, connectToGemini_resume, connect_failed,
    onopen, onclose, onaudioprocess, onended, toggleMic,
    setConnectionState, setErrorMsg, setIsMicOn, emit;
    preserving cursor_side ltac:(auto).
Qed.

Lemma cursor_run (c : Q) (evs : list Event) :
  Forall (fun ev => may_flush ev = false /\ sane_durations ev) evs ->
  forall s : App, cursor_at_least c s -> cursor_at_least c (run evs s).
Proof.
  induction 1 as [|ev evs [Hev Hsane] _ IH]; intros s Hs; simpl; [exact Hs|].
  apply IH.
  apply (preserves_run_task (cursor_at_least c) (handler ev) s).
  - intros s0 H0. unfold cursor_at_least. rewrite nextStartTimeRef_drain. exact H0.
  - apply cursor_handler; assumption.
  - apply total_handler.
  - exact Hs.
Qed.

(** The counterexample to C1 as stated: in the running call (cursor 0) a
    first message arrives at clock time 1 and, before its decode settles, a
    second one arrives at 3/2.  When the first decode settles its unit is
    started at 3/2, the cursor of that moment, and not at the maximum of
    cursor and clock that its own handler computed, which is 1. *)
Lemma overlapped_start_is_not_the_max :
  scheduled (log (run [ message_arrives audio_message 1 None;
                        message_arrives audio_message (3 # 2) None;
                        decode_settles audio_message (Normal {| duration := 2 |}) ]
                      in_call))
  = [(3 # 2, 2)] /\
  Qmax (nextStartTimeRef in_call) 1 = 1 /\
  ~ (3 # 2 == Qmax (nextStartTimeRef in_call) 1)%Q.
Proof. vm_compute. repeat split. discriminate. Qed.

(** C1, amended.  On the event loop, from any state:
    - a message with audio raises the cursor to [max(nextStartTimeRef,
      currentTime)] when it arrives, and its unit is started, when the decode
      settles, at the cursor of that moment;
    - when the decode settles right after the arrival, that start time is the
      maximum computed at arrival;
    - when other events come in between -- further messages, capture ticks,
      ['ended'] events, anything that cannot flush, with non-negative
      durations -- the start time is at least that maximum;
    - whatever events a run without a possible flush consists of, and however
      arrivals and settled decodes interleave in it, the units it schedules
      satisfy [start(i+1) >= start(i) + d(i)]. *)
Theorem scheduler_chains_units :
  (forall (s : App) (m : LiveServerMessage) (t : Q) (audioBuffer : AudioBuffer),
      truthy (inlineData m) = true ->
      interrupted m = false ->
      nextStartTimeRef (step s (message_arrives m t None)) = Qmax (nextStartTimeRef s) t /\
      scheduled (log (run [ message_arrives m t None;
                            decode_settles m (Normal audioBuffer) ] s))
      = scheduled (log s) ++ [(Qmax (nextStartTimeRef s) t, duration audioBuffer)]) /\
  (forall (s : App) (m : LiveServerMessage) (t : Q) (between : list Event)
          (audioBuffer : AudioBuffer),
      truthy (inlineData m) = true ->
      interrupted m = false ->
      Forall (fun ev => may_flush ev = false /\ sane_durations ev) between ->
      let s1 := run between (step s (message_arrives m t None)) in
      (Qmax (nextStartTimeRef s) t <= nextStartTimeRef s1)%Q /\
      scheduled (log (step s1 (decode_settles m (Normal audioBuffer))))
      = scheduled (log s1) ++ [(nextStartTimeRef s1, duration audioBuffer)] /\
      nextStartTimeRef (step s1 (decode_settles m (Normal audioBuffer)))
      = (nextStartTimeRef s1 + duration audioBuffer)%Q) /\
  (forall (s : App) (evs : list Event),
      Forall (fun ev => may_flush ev = false) evs ->
      exists new : list (Q * Q),
        scheduled (log (run evs s)) = scheduled (log s) ++ new /\
        (forall i t1 d1 t2 d2,
            nth_error new i = Some (t1, d1) ->
            nth_error new (S i) = Some (t2, d2) ->
            (t1 + d1 <= t2)%Q)).
Proof.
  assert (Hsettle : forall (s1 : App) (m : LiveServerMessage) (audioBuffer : AudioBuffer),
             interrupted m = false ->
             scheduled (log (step s1 (decode_settles m (Normal audioBuffer))))
             = scheduled (log s1) ++ [(nextStartTimeRef s1, duration audioBuffer)] /\
             nextStartTimeRef (step s1 (decode_settles m (Normal audioBuffer)))
             = (nextStartTimeRef s1 + duration audioBuffer)%Q).
  { intros s1 m audioBuffer Hint. rewrite (step_settles s1 m audioBuffer Hint).
    rewrite scheduled_drain, nextStartTimeRef_drain.
    unfold unit_scheduled. simpl. rewrite scheduled_app. split; reflexivity. }
  assert (Harrive : forall (s : App) (m : LiveServerMessage) (t : Q),
             truthy (inlineData m) = true ->
             nextStartTimeRef (step s (message_arrives m t None)) = Qmax (nextStartTimeRef s) t /\
             scheduled (log (step s (message_arrives m t None))) = scheduled (log s)).
  { intros s m t Haudio. rewrite (step_arrives s m t Haudio).
    rewrite scheduled_drain, nextStartTimeRef_drain. split; reflexivity. }
  split; [|split].
  - intros s m t audioBuffer Haudio Hint.
    destruct (Harrive s m t Haudio) as [Hc Hs].
    split; [exact Hc|].
    simpl run.
    destruct (Hsettle (step s (message_arrives m t None)) m audioBuffer Hint) as [-> _].
    rewrite Hs, Hc. reflexivity.
  - intros s m t between audioBuffer Haudio Hint Hbetween s1.
    split; [|apply Hsettle; exact Hint].
    apply (cursor_run (Qmax (nextStartTimeRef s) t) between Hbetween).
    unfold cursor_at_least. destruct (Harrive s m t Haudio) as [-> _]. apply Qle_refl.
  - intros s evs Hevs.
    destruct (chain_run (scheduled (log s)) evs Hevs s) as (new & Hs & Hw & _).
    { exists []. rewrite app_nil_r. repeat split. }
    exists new. split; [exact Hs|]. apply well_chained_nth. exact Hw.
Qed.

(** C1 amended, in the running call: two messages whose handlers overlap,
    with a capture tick and an ['ended'] event among them. *)
Lemma scheduler_chains_units_witness :
  Forall (fun ev => may_flush ev = false)
    [ message_arrives audio_message 1 None;
      capture_tick 2%nat 7%nat;
      message_arrives audio_message (3 # 2) None;
      decode_settles audio_message (Normal {| duration := 2 |});
      playback_ends 3%nat;
      decode_settles audio_message (Normal {| duration := 1 |}) ] /\
  exists new : list (Q * Q),
    scheduled (log (run
      [ message_arrives audio_message 1 None;
        capture_tick 2%nat 7%nat;
        message_arrives audio_message (3 # 2) None;
        decode_settles audio_message (Normal {| duration := 2 |});
        playback_ends 3%nat;
        decode_settles audio_message (Normal {| duration := 1 |}) ] in_call))
    = scheduled (log in_call) ++ new /\
    (forall i t1 d1 t2 d2,
        nth_error new i = Some (t1, d1) ->
        nth_error new (S i) = Some (t2, d2) ->
        (t1 + d1 <= t2)%Q).
Proof.
  assert (H : Forall (fun ev => may_flush ev = false)
    [ message_arrives audio_message 1 None;
      capture_tick 2%nat 7%nat;
      message_arrives audio_message (3 # 2) None;
      decode_settles audio_message (Normal {| duration := 2 |});
      playback_ends 3%nat;
      decode_settles audio_message (Normal {| duration := 1 |}) ])
    by (repeat constructor).
  split; [exact H|].
  exact (proj2 (proj2 scheduler_chains_units) in_call _ H).
Defined.

(** ** Remote error: what is released *)

Lemma stops_of_quiet (l x : list Effect) (ns : list NodeId) :
  (forall n, was_started n x = false) -> stops_of (l ++ x) ns = stops_of l ns.
Proof.
  intro H. unfold stops_of. f_equal. apply filter_ext. intro n.
  rewrite was_started_app, H. apply orb_false_r.
Qed.

Lemma input_release_never_starts (s : App) (n : NodeId) :
  was_started n (input_release s) = false.
Proof.
  unfold input_release. destruct (processorRef s), (sourceRef s), (streamRef s); reflexivity.
Qed.

(** The trace [disconnect] leaves up to its [await]. *)
Lemma log_torn_down (s : App) :
  log (torn_down s)
  = log s ++ input_release s ++ stops_of (log s) (audioSourcesRef s).
Proof.
  unfold torn_down, output_stopped, input_stopped. simpl.
  change (input_release (with_connectionState disconnected s)) with (input_release s).
  rewrite (stops_of_quiet (log s) (input_release s) (audioSourcesRef s)
             (input_release_never_starts s)).
  rewrite <- app_assoc. reflexivity.
Qed.

(** C3, amended.  On every remote error, in any state (so also while
    connecting or connected), [onerror] does not throw, sets the fixed message
    "Connection error. Please try again." whatever the error carried, and runs
    [disconnect].  The state becomes [disconnected], not [error].  Capture is
    stopped: the tracks of the held stream are stopped, the held nodes are
    disconnected, the held script processor leaves the graph, and the three
    refs are cleared.  Playback is flushed: every started unit of the set is
    stopped, the set is emptied and the cursor is 0.  The synchronous part
    adds exactly these entries to the trace.  If the session promise is
    already fulfilled the session is closed once and [sessionPromiseRef]
    cleared within the same task; if it is still pending, the closing is
    parked on it. *)
Theorem remote_error_tears_down :
  forall (e : Exn) (s : App),
    let s' := step s (session_fails e) in
    let sync := exec (onerror e) s in
    let released := input_release s ++ stops_of (log s) (audioSourcesRef s) in
    fst (onerror e s) = Normal tt /\
    connectionState s' = disconnected /\
    errorMsg s' = Some "Connection error. Please try again."%string /\
    processorRef s' = None /\ sourceRef s' = None /\ streamRef s' = None /\
    audioSourcesRef s' = [] /\ nextStartTimeRef s' = 0%Q /\
    log sync = log s ++ [console_error "Session Error" e] ++ released /\
    (exists l : list Effect, log s' = log sync ++ l) /\
    (forall m, streamRef s = Some m -> In (track_stop m) released) /\
    (forall n, sourceRef s = Some n -> In (node_disconnect n) released) /\
    (forall n, processorRef s = Some n -> In (node_disconnect n) released) /\
    (forall n, In n (audioSourcesRef s) -> was_started n (log s) = true ->
               In (source_stop n) released) /\
    processors (platform s') = processors_left s /\
    (forall (p : PromiseId) (session : Session),
        sessionPromiseRef s = Some p ->
        promise_state p (platform s) = Some (fulfilled session) ->
        sessionPromiseRef s' = None /\
        (jobs (platform s) = [] ->
         log s' = log sync ++ [closing p session] /\
         closes (log s') = closes (log s) ++ closes [closing p session])) /\
    (forall (p : PromiseId) (rs : list Reaction),
        sessionPromiseRef s = Some p ->
        promise_state p (platform s) = Some (pending rs) ->
        promise_state p (platform s') = Some (pending (rs ++ [await_in_disconnect]))).
Proof.
  intros e s s' sync released.
  set (s0 := with_errorMsg (Some "Connection error. Please try again."%string)
               (with_log (log s ++ [console_error "Session Error" e]) s)).
  destruct (remote_error_frame e s)
    as (Hret & _ & Hcs & Hem & Hpr & Hsrc & Hst & Haus & Hnx & Hful & Hpend).
  fold s' in Hcs, Hem, Hpr, Hsrc, Hst, Haus, Hnx, Hful, Hpend.
  assert (Hstep : s' = step s0 user_hangs_up).
  { unfold s', step, handler.
    rewrite (run_task_normal _ _ Hret), (run_task_normal _ _ (disconnect_returns s0)).
    unfold exec. rewrite onerror_spec. reflexivity. }
  assert (Hsync : log sync = log s ++ [console_error "Session Error" e] ++ released).
  { unfold sync, exec. rewrite onerror_spec. fold s0.
    destruct (disconnect_frame s0) as [h Hh]. unfold exec in Hh. rewrite Hh.
    rewrite log_with_platform, log_torn_down. unfold released.
    change (input_release s0) with (input_release s).
    change (audioSourcesRef s0) with (audioSourcesRef s).
    change (log s0) with (log s ++ [console_error "Session Error" e]).
    rewrite (stops_of_quiet (log s) [console_error "Session Error" e] (audioSourcesRef s))
      by (intro n; reflexivity).
    rewrite <- app_assoc. reflexivity. }
  do 8 (split; [assumption|]).
  split; [exact Hsync|].
  split.
  { unfold s', step, handler. rewrite (run_task_normal _ _ Hret). fold sync.
    destruct (drain_result sync) as (l & _ & _ & [Hd | Hd]); exists l; rewrite Hd; reflexivity. }
  split.
  { intros m Hm. unfold released, input_release. rewrite Hm.
    apply in_or_app. left. apply in_or_app. right. apply in_or_app. right.
    left. reflexivity. }
  split.
  { intros n Hn. unfold released, input_release. rewrite Hn.
    apply in_or_app. left. apply in_or_app. right. apply in_or_app. left.
    left. reflexivity. }
  split.
  { intros n Hn. unfold released, input_release. rewrite Hn.
    apply in_or_app. left. apply in_or_app. left. left. reflexivity. }
  split.
  { intros n Hin Hstarted. unfold released. apply in_or_app. right.
    unfold stops_of. apply in_map. apply filter_In. split; assumption. }
  split.
  { rewrite Hstep. unfold step, handler.
    rewrite (run_task_normal _ _ (disconnect_returns s0)), platform_drain.
    simpl processors. rewrite processors_after_disconnect. reflexivity. }
  split; [|exact Hpend].
  intros p session Hp Hfulp.
  split; [exact (proj1 (Hful p session Hp Hfulp))|].
  intro Hjobs.
  assert (Hs' : s' = with_sessionPromiseRef None
                       (with_log (log (torn_down s0) ++ [closing p session]) (torn_down s0))).
  { rewrite Hstep. apply hang_up_fulfilled; assumption. }
  assert (Hlog : log s' = log sync ++ [closing p session]).
  { rewrite Hs'. simpl log. f_equal.
    unfold sync, exec. rewrite onerror_spec. fold s0.
    destruct (disconnect_frame s0) as [h Hh]. unfold exec in Hh. rewrite Hh.
    reflexivity. }
  split; [exact Hlog|].
  rewrite Hlog, Hsync, !closes_app. unfold released. rewrite !closes_app.
  assert (H1 : closes (input_release s) = []).
  { unfold input_release.
    destruct (processorRef s), (sourceRef s), (streamRef s); reflexivity. }
  assert (H2 : closes (stops_of (log s) (audioSourcesRef s)) = []).
  { unfold stops_of.
    induction (filter (fun n => was_started n (log s)) (audioSourcesRef s)); simpl; auto. }
  rewrite H1, H2. simpl. rewrite !app_nil_r. reflexivity.
Qed.

(** C3 amended, in the playing call: the stream, both capture nodes and the
    playing unit are released, and the session is closed once. *)
Lemma remote_error_tears_down_witness :
  streamRef playing = Some 0%nat /\
  In 3%nat (audioSourcesRef playing) /\
  sessionPromiseRef playing = Some 0%nat /\
  In (track_stop 0%nat)
     (input_release playing ++ stops_of (log playing) (audioSourcesRef playing)) /\
  In (source_stop 3%nat)
     (input_release playing ++ stops_of (log playing) (audioSourcesRef playing)) /\
  closes (log (step playing (session_fails (JsError "socket hang up"))))
  = closes (log playing) ++ closes [closing 0%nat live_session].
Proof.
  assert (H1 : streamRef playing = Some 0%nat) by (vm_compute; reflexivity).
  assert (H2 : In 3%nat (audioSourcesRef playing)) by (vm_compute; left; reflexivity).
  assert (H3 : was_started 3%nat (log playing) = true) by (vm_compute; reflexivity).
  assert (H4 : sessionPromiseRef playing = Some 0%nat) by (vm_compute; reflexivity).
  assert (H5 : promise_state 0%nat (platform playing) = Some (fulfilled live_session))
    by (vm_compute; reflexivity).
  assert (H6 : jobs (platform playing) = []) by (vm_compute; reflexivity).
  destruct (remote_error_tears_down (JsError "socket hang up") playing)
    as (_ & _ & _ & _ & _ & _ & _ & _ & _ & _ & Hst & _ & _ & Hstop & _ & Hful & _).
  split; [exact H1|]. split; [exact H2|]. split; [exact H4|].
  split; [exact (Hst 0%nat H1)|].
  split; [exact (Hstop 3%nat H2 H3)|].
  exact (proj2 (proj2 (Hful 0%nat live_session H4 H5) H6)).
Defined.
